(** * PrivacyPollsFHE: the encrypted vote ledger, its aggregation loop and
      its decryption request/callback protocol

    A shallow embedding of the Solidity contract [PrivacyPollsFHE].
    Contract storage is a record, every external function is a function
    from the state to a [result]; a revert gives back no state, so the
    caller keeps the one it had.  The FHE library, the decryption oracle and
    [keccak256] are imported by the contract: they are the fields of the
    class [FHEVM], constrained by the laws of [FHEVMLaws].  The access
    control list of the FHE library and gas are not modelled. *)

From Stdlib Require Import ZArith Lia.
From Stdlib.Strings Require Import Byte.
From stdpp Require Import gmap strings list fin_maps.

Local Open Scope Z_scope.

(** ** Machine integers, bytes and ABI words *)

Definition MAX_UINT256 : Z := 2 ^ 256 - 1.
Definition UINT32_MOD : Z := 2 ^ 32.

Definition byte_of_Z (z : Z) : byte :=
  default x00 (Byte.of_N (Z.to_N (z mod 256))).

Definition Z_of_byte (b : byte) : Z := Z.of_N (Byte.to_N b).

#[global] Instance byte_eq_dec : EqDecision byte.
Proof.
  intros a b. destruct (decide (Byte.to_N a = Byte.to_N b)) as [E|E].
  - left. apply (f_equal Byte.of_N) in E. rewrite !Byte.of_to_N in E.
    congruence.
  - right. congruence.
Defined.

(** [b[i]] on a [bytes32] value: byte [0] is the most significant one. *)
Definition bytes32_index (b : Z) (i : nat) : byte :=
  byte_of_Z (Z.shiftr b (8 * (31 - Z.of_nat i))).

(** The [n] low bytes of [v], most significant first. *)
Fixpoint be_bytes (n : nat) (v : Z) : list byte :=
  match n with
  | O => []
  | S n' => be_bytes n' (v / 256) ++ [byte_of_Z v]
  end.

Definition be_word (bs : list byte) : Z :=
  fold_left (fun acc b => acc * 256 + Z_of_byte b) bs 0.

(** [abi.encode] of a sequence of static values: one 32-byte word each. *)
Definition abi_encode_words (vs : list Z) : list byte :=
  concat (be_bytes 32 <$> vs).

(** [abi.decode(data, (uint32))]: reads the first word and checks that it
    fits the type; data shorter than a word, or a word with dirty high
    bits, reverts. *)
Definition abi_decode_uint32 (data : list byte) : option Z :=
  if (length data <? 32)%nat then None
  else
    let w := be_word (take 32 data) in
    if w <? UINT32_MOD then Some w else None.

(** [abi.encodePacked(s)] of one string is the string's bytes. *)
Definition abi_encodePacked (s : string) : list byte :=
  String.list_byte_of_string s.

(** ** Reverts *)

Inductive revert_reason : Type :=
| Error (msg : string)      (* require(..., msg) and revert(msg) *)
| Panic (code : Z)          (* 0x11: checked arithmetic overflowed *)
| InvalidSignatures         (* FHE.checkSignatures rejected the proof *)
| AbiDecodeError.           (* abi.decode rejected the data *)

Inductive result (A : Type) : Type :=
| Ok (a : A)
| Revert (r : revert_reason).

Arguments Ok {A} a.
Arguments Revert {A} r.

(** Sequencing: the first revert ends the call. *)
#[global] Instance result_bind : MBind result := fun A B k m =>
  match m with
  | Ok a => k a
  | Revert r => Revert r
  end.

Definition is_ok {A : Type} (m : result A) : bool :=
  match m with Ok _ => true | Revert _ => false end.

#[global] Instance revert_reason_eq_dec : EqDecision revert_reason.
Proof. solve_decision. Defined.

(** ** The external capabilities *)

(** What the contract imports: the FHE library (handles are [bytes32]
    values, here integers), the oracle's proof check and [keccak256].
    [decrypt] is a ghost: the plaintext behind a handle, which no code can
    read. *)
Class FHEVM : Type := {
  FHE_asEuint32 : Z -> Z;
  FHE_add : Z -> Z -> Z;
  keccak256 : list byte -> Z;
  verifySignatures : list Z -> list byte -> list byte -> bool;
  decrypt : Z -> Z
}.

(** The laws of the capability: handles made by the library are
    initialized, [euint32] arithmetic is arithmetic modulo [2^32] and reads
    an uninitialized handle as zero, and a proof the oracle's check accepts
    certifies the cleartexts to be the ABI encoding of the plaintexts of the
    handles of the request. *)
Class FHEVMLaws (F : FHEVM) : Prop := {
  asEuint32_initialized : forall v, FHE_asEuint32 v <> 0;
  add_initialized : forall a b, FHE_add a b <> 0;
  decrypt_uninitialized : decrypt 0 = 0;
  decrypt_asEuint32 : forall v, decrypt (FHE_asEuint32 v) = v mod UINT32_MOD;
  decrypt_add : forall a b,
    decrypt (FHE_add a b) = (decrypt a + decrypt b) mod UINT32_MOD;
  verifySignatures_sound : forall hs cleartexts proof,
    verifySignatures hs cleartexts proof = true ->
    cleartexts = abi_encode_words (decrypt <$> hs)
}.

(** [FHE.isInitialized]: a handle is initialized when it is not the zero
    word. *)
Definition FHE_isInitialized (h : Z) : bool := negb (h =? 0).

(** [FHE.toBytes32]: unwraps the handle. *)
Definition FHE_toBytes32 (h : Z) : Z := h.

(** ** Storage *)

Record EncryptedVote : Type := {
  voterId : Z;
  encryptedChoice : Z;
  timestamp : Z
}.

Definition zero_vote : EncryptedVote :=
  {| voterId := 0; encryptedChoice := 0; timestamp := 0 |}.

Inductive event : Type :=
| VoteSubmitted (voter : Z) (time : Z)
| DecryptionRequested (requestId : Z)
| VoteCountDecrypted (choice : string) (count : Z).

(** The contract's storage, the two storage cells the FHE library keeps
    for decryption requests, and the event log. *)
Record State : Type := {
  voteCount : Z;
  encryptedVotes : gmap Z EncryptedVote;
  encryptedChoiceCount : gmap string Z;
  choiceList : list string;
  decryptionRequests : gmap Z Z;
  counterRequest : Z;
  requestedHandles : gmap Z (list Z);
  events : list event
}.

Definition init : State := {|
  voteCount := 0;
  encryptedVotes := ∅;
  encryptedChoiceCount := ∅;
  choiceList := [];
  decryptionRequests := ∅;
  counterRequest := 0;
  requestedHandles := ∅;
  events := []
|}.

(** Reading a mapping gives the zero value at a key never written. *)
Definition vote_at (s : State) (i : Z) : EncryptedVote :=
  default zero_vote (encryptedVotes s !! i).

Definition getEncryptedChoiceCount (s : State) (choice : string) : Z :=
  default 0 (encryptedChoiceCount s !! choice).

Definition request_at (s : State) (requestId : Z) : Z :=
  default 0 (decryptionRequests s !! requestId).

Definition getChoiceList (s : State) : list string := choiceList s.

Definition emit (e : event) (s : State) : State := {|
  voteCount := voteCount s;
  encryptedVotes := encryptedVotes s;
  encryptedChoiceCount := encryptedChoiceCount s;
  choiceList := choiceList s;
  decryptionRequests := decryptionRequests s;
  counterRequest := counterRequest s;
  requestedHandles := requestedHandles s;
  events := events s ++ [e]
|}.

Definition set_count (choice : string) (h : Z) (s : State) : State := {|
  voteCount := voteCount s;
  encryptedVotes := encryptedVotes s;
  encryptedChoiceCount := <[choice := h]> (encryptedChoiceCount s);
  choiceList := choiceList s;
  decryptionRequests := decryptionRequests s;
  counterRequest := counterRequest s;
  requestedHandles := requestedHandles s;
  events := events s
|}.

Definition push_choice (choice : string) (s : State) : State := {|
  voteCount := voteCount s;
  encryptedVotes := encryptedVotes s;
  encryptedChoiceCount := encryptedChoiceCount s;
  choiceList := choiceList s ++ [choice];
  decryptionRequests := decryptionRequests s;
  counterRequest := counterRequest s;
  requestedHandles := requestedHandles s;
  events := events s
|}.

Definition store_vote (v : EncryptedVote) (s : State) : State := {|
  voteCount := voteCount s + 1;
  encryptedVotes := <[voteCount s + 1 := v]> (encryptedVotes s);
  encryptedChoiceCount := encryptedChoiceCount s;
  choiceList := choiceList s;
  decryptionRequests := decryptionRequests s;
  counterRequest := counterRequest s;
  requestedHandles := requestedHandles s;
  events := events s
|}.

Definition set_request (requestId commitment : Z) (s : State) : State := {|
  voteCount := voteCount s;
  encryptedVotes := encryptedVotes s;
  encryptedChoiceCount := encryptedChoiceCount s;
  choiceList := choiceList s;
  decryptionRequests := <[requestId := commitment]> (decryptionRequests s);
  counterRequest := counterRequest s;
  requestedHandles := requestedHandles s;
  events := events s
|}.

(** ** Helpers of the contract *)

(** Copies the 32 bytes of the word, in order, into a string. *)
Definition bytes32ToString (b : Z) : string :=
  String.string_of_list_byte (bytes32_index b <$> seq 0 32).

Definition bytes32ToUint (b : Z) : Z := b.

(** The key a ledger entry is counted under: the bytes of its ciphertext
    handle. *)
Definition choice_key (v : EncryptedVote) : string :=
  bytes32ToString (FHE_toBytes32 (encryptedChoice v)).

Section Contract.

Context {F : FHEVM}.

Definition choice_hash (choice : string) : Z :=
  bytes32ToUint (keccak256 (abi_encodePacked choice)).

(** The scan of [getChoiceFromHash] over a list of choices: the first
    choice whose hash is the one looked for. *)
Fixpoint find_choice (l : list string) (hash : Z) : result string :=
  match l with
  | [] => Revert (Error "Choice not found")
  | c :: l' => if choice_hash c =? hash then Ok c else find_choice l' hash
  end.

Definition getChoiceFromHash (s : State) (hash : Z) : result string :=
  find_choice (choiceList s) hash.

(** Modelled from the spec: [FHE.requestDecryption] is library code outside
    the repository; the spec has it generate a fresh unique request id and
    submit the tally's ciphertext handle to the oracle.  The id is the
    library's request counter, and the handles are kept under it. *)
Definition FHE_requestDecryption (ciphertexts : list Z) (s : State)
  : Z * State :=
  (counterRequest s,
   {| voteCount := voteCount s;
      encryptedVotes := encryptedVotes s;
      encryptedChoiceCount := encryptedChoiceCount s;
      choiceList := choiceList s;
      decryptionRequests := decryptionRequests s;
      counterRequest := counterRequest s + 1;
      requestedHandles := <[counterRequest s := ciphertexts]> (requestedHandles s);
      events := events s |}).

(** Modelled from the spec: [FHE.checkSignatures] is library code outside
    the repository; the spec has the proof validate against the cleartext
    and the oracle's verification material, failing with an invalid-proof
    error otherwise.  The check is made against the handles kept for the
    request and changes nothing. *)
Definition FHE_checkSignatures (s : State) (requestId : Z)
    (cleartexts proof : list byte) : result unit :=
  if verifySignatures (default [] (requestedHandles s !! requestId))
       cleartexts proof
  then Ok tt
  else Revert InvalidSignatures.

(** ** The external functions *)

(** The modifier [onlyVoter]: a placeholder, its body is the guarded
    function's and nothing else. *)
Definition onlyVoter (voter : Z) (body : result State) : result State :=
  body.

(** [submitEncryptedVote]; [now] is [block.timestamp]. *)
Definition submitEncryptedVote (now voter choice : Z) (s : State)
  : result State :=
  if MAX_UINT256 <? voteCount s + 1 then Revert (Panic 17)
  else
    let s1 :=
      store_vote {| voterId := voter; encryptedChoice := choice;
                    timestamp := now |} s in
    let s2 :=
      if negb (FHE_isInitialized
                 (getEncryptedChoiceCount s1
                    (bytes32ToString (FHE_toBytes32 choice))))
      then
        let choiceStr := bytes32ToString (FHE_toBytes32 choice) in
        push_choice choiceStr (set_count choiceStr (FHE_asEuint32 0) s1)
      else s1 in
    Ok (emit (VoteSubmitted voter now) s2).

(** The body of the loop of [aggregateVotes] at index [i]. *)
Definition aggregate_body (i : Z) (s : State) : State :=
  let v := vote_at s (i + 1) in
  let choiceStr := bytes32ToString (FHE_toBytes32 (encryptedChoice v)) in
  set_count choiceStr
    (FHE_add (getEncryptedChoiceCount s choiceStr) (FHE_asEuint32 1)) s.

(** [n] iterations of the loop from index [i]. *)
Fixpoint aggregate_loop (n : nat) (i : Z) (s : State) : State :=
  match n with
  | O => s
  | S n' => aggregate_loop n' (i + 1) (aggregate_body i s)
  end.

(** [aggregateVotes]: the loop runs for [i = 0 .. voteCount - 1]; the body
    leaves [voteCount] alone, so that is [voteCount] iterations. *)
Definition aggregateVotes (s : State) : result State :=
  Ok (aggregate_loop (Z.to_nat (voteCount s)) 0 s).

Definition requestChoiceDecryption (choice : string) (s : State)
  : result State :=
  let count := getEncryptedChoiceCount s choice in
  if negb (FHE_isInitialized count) then Revert (Error "Choice not found")
  else
    let ciphertexts := [FHE_toBytes32 count] in
    let '(reqId, s1) := FHE_requestDecryption ciphertexts s in
    Ok (emit (DecryptionRequested reqId)
          (set_request reqId (choice_hash choice) s1)).

Definition decryptChoiceCount (requestId : Z) (cleartexts proof : list byte)
    (s : State) : result State :=
  let choiceHash := request_at s requestId in
  choice ← getChoiceFromHash s choiceHash;
  FHE_checkSignatures s requestId cleartexts proof;;
  match abi_decode_uint32 cleartexts with
  | None => Revert AbiDecodeError
  | Some count => Ok (emit (VoteCountDecrypted choice count) s)
  end.

(** ** Transactions *)

Inductive call : Type :=
| SubmitEncryptedVote (now voter choice : Z)
| AggregateVotes
| RequestChoiceDecryption (choice : string)
| DecryptChoiceCount (requestId : Z) (cleartexts proof : list byte).

Definition execute (c : call) (s : State) : result State :=
  match c with
  | SubmitEncryptedVote now voter choice =>
      submitEncryptedVote now voter choice s
  | AggregateVotes => aggregateVotes s
  | RequestChoiceDecryption choice => requestChoiceDecryption choice s
  | DecryptChoiceCount requestId cleartexts proof =>
      decryptChoiceCount requestId cleartexts proof s
  end.

(** A transaction that reverts leaves the storage as it was. *)
Definition step (c : call) (s : State) : State :=
  match execute c s with
  | Ok s' => s'
  | Revert _ => s
  end.

Definition run (cs : list call) (s : State) : State :=
  fold_left (fun s c => step c s) cs s.

Inductive reachable : State -> Prop :=
| reachable_init : reachable init
| reachable_step c s : reachable s -> reachable (step c s).

(** ** Ghost views of the storage *)

(** The keys of the ledger entries [1 .. voteCount], in order. *)
Definition ledger_keys (s : State) : list string :=
  (fun i => choice_key (vote_at s i)) <$> seqZ 1 (voteCount s).

(** The keys of the [n] entries after index [i]: what [n] iterations of
    the aggregation loop started at [i] read. *)
Definition keys_range (s : State) (i : Z) (n : nat) : list string :=
  (fun j => choice_key (vote_at s j)) <$> seqZ (i + 1) (Z.of_nat n).

(** How many entries of a list of keys are the key [k]. *)
Definition count_key (k : string) (l : list string) : nat :=
  length (filter (fun k' => k' = k) l).

Definition votes_for (k : string) (l : list string) : Z :=
  Z.of_nat (count_key k l).

(** What one iteration of the aggregation loop does to a tally handle. *)
Definition fold_vote (h : Z) : Z := FHE_add h (FHE_asEuint32 1).

(** The plaintext of the tally of [k]. *)
Definition tally (s : State) (k : string) : Z :=
  decrypt (getEncryptedChoiceCount s k).

Definition registered (s : State) (k : string) : Prop :=
  FHE_isInitialized (getEncryptedChoiceCount s k) = true.

(** The sum of the plaintexts of the tallies of the listed choices. *)
Definition sum_tallies (s : State) : Z :=
  foldr Z.add 0 (tally s <$> choiceList s).

(** Two states that differ at most in the tallies. *)
Definition same_but_counts (s s' : State) : Prop :=
  voteCount s' = voteCount s /\
  encryptedVotes s' = encryptedVotes s /\
  choiceList s' = choiceList s /\
  decryptionRequests s' = decryptionRequests s /\
  counterRequest s' = counterRequest s /\
  requestedHandles s' = requestedHandles s /\
  events s' = events s.

(** What every reachable state satisfies. *)
Record wf (s : State) : Prop := {
  wf_nodup : NoDup (choiceList s);
  wf_listed : forall k, k ∈ choiceList s <-> getEncryptedChoiceCount s k <> 0;
  wf_ledger : forall k, k ∈ ledger_keys s -> k ∈ choiceList s;
  wf_count : 0 <= voteCount s <= MAX_UINT256;
  wf_range : forall k, 0 <= tally s k < UINT32_MOD;
  wf_counter : 0 <= counterRequest s;
  wf_fresh : forall id,
    is_Some (requestedHandles s !! id) -> 0 <= id < counterRequest s;
  wf_request : forall id c,
    decryptionRequests s !! id = Some c ->
    exists k h, c = choice_hash k /\ k ∈ choiceList s /\
      requestedHandles s !! id = Some [h] /\ 0 <= decrypt h < UINT32_MOD;
  wf_handles : forall id,
    decryptionRequests s !! id = None -> requestedHandles s !! id = None
}.

(** The keys of the votes a list of calls submits. *)
Definition submitted_keys (cs : list call) : list string :=
  omap (fun c => match c with
                 | SubmitEncryptedVote _ _ choice =>
                     Some (bytes32ToString (FHE_toBytes32 choice))
                 | _ => None
                 end) cs.

Definition is_aggregate (c : call) : bool :=
  match c with AggregateVotes => true | _ => false end.

(** No vote has been folded yet: every tally stored is the encrypted zero
    it was registered with. *)
Definition zero_tallies (s : State) : Prop :=
  forall k h, encryptedChoiceCount s !! k = Some h -> h = FHE_asEuint32 0.

End Contract.

(** ** A concrete capability, to run the contract on

    A handle is its plaintext plus one, in the low 32 bits; the higher bits
    are free, so one plaintext has many handles.  A proof is valid when it
    is the cleartexts themselves. *)
Module Toy.

Definition toy_decrypt (h : Z) : Z :=
  if h =? 0 then 0 else (h - 1) mod UINT32_MOD.

Definition toy_hash (bs : list byte) : Z :=
  fold_left (fun acc b => (acc * 257 + Z_of_byte b + 1) mod 2 ^ 256) bs 0.

#[global] Instance toy : FHEVM := {|
  FHE_asEuint32 := fun v => v mod UINT32_MOD + 1;
  FHE_add := fun a b => (toy_decrypt a + toy_decrypt b) mod UINT32_MOD + 1;
  keccak256 := toy_hash;
  verifySignatures := fun hs cleartexts proof =>
    bool_decide (cleartexts = abi_encode_words (toy_decrypt <$> hs))
    && bool_decide (proof = cleartexts);
  decrypt := toy_decrypt
|}.

(** Sample inputs: two ciphertext handles (plaintexts 0 and 1), the keys
    the contract derives from them, and a ledger holding one vote. *)
Definition hA : Z := 2 ^ 40 + 1.
Definition hB : Z := 2 ^ 41 + 2.
Definition kA : string := bytes32ToString hA.
Definition kB : string := bytes32ToString hB.

Definition one_vote : State := step (SubmitEncryptedVote 1000 7 hA) init.

(** The vote aggregated once, then a decryption request for its key; a
    further vote and a further aggregation after the request; and the
    cleartexts an oracle returns for a tally of one. *)
Definition aggregated : State := step AggregateVotes one_vote.
Definition requested : State := step (RequestChoiceDecryption kA) aggregated.
Definition later : list call := [SubmitEncryptedVote 1001 8 hA; AggregateVotes].
Definition clear1 : list byte := abi_encode_words [1].

(** As many votes with one handle as a 32-bit counter has values. *)
Definition wrap_votes : list call :=
  replicate (Z.to_nat UINT32_MOD) (SubmitEncryptedVote 1000 7 hA).

(** Three ballots, two of them for one key; and two ballots for one key
    with an aggregation between them. *)
Definition ballots : list call :=
  [SubmitEncryptedVote 1000 7 hA; SubmitEncryptedVote 1001 8 hB;
   SubmitEncryptedVote 1002 9 hA].

Definition early_aggregate : list call :=
  [SubmitEncryptedVote 1000 7 hA; AggregateVotes;
   SubmitEncryptedVote 1001 8 hA].

End Toy.

(** ** Further views of the storage and of the event log *)

(** The distinct keys of a list, in the order of their first occurrence. *)
Definition distinct_keys (l : list string) : list string :=
  foldl (fun acc k => if decide (k ∈ acc) then acc else acc ++ [k]) [] l.

Definition is_VoteSubmitted (e : event) : bool :=
  match e with VoteSubmitted _ _ => true | _ => false end.

Definition is_DecryptionRequested (e : event) : bool :=
  match e with DecryptionRequested _ => true | _ => false end.

Definition count_events (p : event -> bool) (es : list event) : nat :=
  length (filter (fun e => p e = true) es).

(** What an event of the log tells about the storage it is read with. *)
Definition event_ok (s : State) (e : event) : Prop :=
  match e with
  | VoteSubmitted voter time =>
      exists i, 1 <= i <= voteCount s /\
        voterId (vote_at s i) = voter /\ timestamp (vote_at s i) = time
  | DecryptionRequested requestId =>
      is_Some (decryptionRequests s !! requestId)
  | VoteCountDecrypted choice count =>
      choice ∈ choiceList s /\ 0 <= count < UINT32_MOD
  end.

(** What the tally of the key [k] is after a list of calls: [n] counts the
    votes for [k] so far, and every aggregation adds that number to the
    total [t]. *)
Fixpoint tally_trace (k : string) (cs : list call) (n t : Z) : Z :=
  match cs with
  | [] => t
  | SubmitEncryptedVote _ _ choice :: cs' =>
      if decide (bytes32ToString (FHE_toBytes32 choice) = k)
      then tally_trace k cs' (n + 1) t
      else tally_trace k cs' n t
  | AggregateVotes :: cs' => tally_trace k cs' n (t + n)
  | _ :: cs' => tally_trace k cs' n t
  end.

(** ** The poll form of the web client

    The option editors of the form that creates a poll ([App.tsx]).  The
    options are a JavaScript array of strings; an element is [None] where
    the array has a hole or [undefined], which an assignment past the end
    leaves behind.  The editors copy the array before they change it, so
    the two are the same to them.  Indices are integers; the array indices
    among them are those from zero to [2^32 - 2]. *)
Module PollForm.

Record NewPollData : Type := {
  title : string;
  description : string;
  options : list (option string)
}.

(** The form's initial state: three empty options. *)
Definition initial : NewPollData :=
  {| title := ""; description := ""; options := [Some ""; Some ""; Some ""] |}.

(** [Array.prototype.splice(start, deleteCount)] without inserted items,
    on the array itself: a negative start counts from the end, and both
    numbers are clamped to the array. *)
Definition splice {A : Type} (start deleteCount : Z) (l : list A) : list A :=
  let len := Z.of_nat (length l) in
  let actualStart :=
    if start <? 0 then Z.max (len + start) 0 else Z.min start len in
  let actualDeleteCount := Z.min (Z.max deleteCount 0) (len - actualStart) in
  take (Z.to_nat actualStart) l
  ++ drop (Z.to_nat (actualStart + actualDeleteCount)) l.

(** The largest array index: an array has [2^32 - 1] elements at most. *)
Definition MAX_ARRAY_INDEX : Z := 2 ^ 32 - 2.

(** [a[index] = value]: an integer is an array index when it is between
    zero and [MAX_ARRAY_INDEX]; with any other integer the assignment sets
    a property of the object and leaves the elements and the length as
    they are.  With an array index, inside the array the element is
    replaced, and past the end the array grows up to the index. *)
Definition assign {A : Type} (index : Z) (value : A) (l : list (option A))
  : list (option A) :=
  let len := Z.of_nat (length l) in
  if index <? 0 then l
  else if MAX_ARRAY_INDEX <? index then l
  else if index <? len then <[Z.to_nat index := Some value]> l
  else l ++ replicate (Z.to_nat (index - len)) None ++ [Some value].

Definition with_options (d : NewPollData) (o : list (option string))
  : NewPollData :=
  {| title := title d; description := description d; options := o |}.

Definition addOption (d : NewPollData) : NewPollData :=
  with_options d (options d ++ [Some ""]).

Definition removeOption (index : Z) (d : NewPollData) : NewPollData :=
  if (length (options d) <=? 2)%nat then d
  else
    let newOptions := options d in
    with_options d (splice index 1 newOptions).

Definition updateOption (index : Z) (value : string) (d : NewPollData)
  : NewPollData :=
  let newOptions := options d in
  with_options d (assign index value newOptions).

Inductive edit : Type :=
| AddOption
| RemoveOption (index : Z)
| UpdateOption (index : Z) (value : string).

Definition apply_edit (e : edit) (d : NewPollData) : NewPollData :=
  match e with
  | AddOption => addOption d
  | RemoveOption index => removeOption index d
  | UpdateOption index value => updateOption index value d
  end.

Definition apply_edits (es : list edit) (d : NewPollData) : NewPollData :=
  fold_left (fun d e => apply_edit e d) es d.

End PollForm.

(** * Properties *)

(** ** Bytes and ABI words *)

Lemma Z_of_byte_of_Z (z : Z) : Z_of_byte (byte_of_Z z) = z mod 256.
Proof.
  unfold Z_of_byte, byte_of_Z.
  assert (Hr : 0 <= z mod 256 < 256) by (apply Z.mod_pos_bound; lia).
  destruct (Byte.of_N (Z.to_N (z mod 256))) as [b|] eqn:E; simpl.
  - apply Byte.to_of_N in E. rewrite E. lia.
  - apply Byte.of_N_None_iff in E. lia.
Qed.

Lemma be_word_snoc (bs : list byte) (b : byte) :
  be_word (bs ++ [b]) = be_word bs * 256 + Z_of_byte b.
Proof. unfold be_word. now rewrite fold_left_app. Qed.

Lemma length_be_bytes (n : nat) (v : Z) : length (be_bytes n v) = n.
Proof.
  revert v. induction n as [|n IH]; intros v; simpl; [reflexivity|].
  rewrite length_app, IH. simpl. lia.
Qed.

Lemma be_word_be_bytes (n : nat) (v : Z) :
  be_word (be_bytes n v) = v mod 256 ^ Z.of_nat n.
Proof.
  revert v. induction n as [|n IH]; intros v.
  - simpl. now rewrite Z.mod_1_r.
  - cbn [be_bytes]. rewrite be_word_snoc, IH, Z_of_byte_of_Z.
    rewrite Nat2Z.inj_succ, Z.pow_succ_r by lia.
    rewrite (Z.rem_mul_r v 256 (256 ^ Z.of_nat n)) by lia. lia.
Qed.

(** Decoding the encoding of a sequence of words gives back the first
    one when it fits 32 bits. *)
Lemma abi_decode_encode (v : Z) (vs : list Z) :
  0 <= v < UINT32_MOD ->
  abi_decode_uint32 (abi_encode_words (v :: vs)) = Some v.
Proof.
  intros Hv. unfold abi_decode_uint32, abi_encode_words.
  cbn [fmap list_fmap concat].
  rewrite length_app, length_be_bytes.
  destruct (_ <? 32)%nat eqn:E; [apply Nat.ltb_lt in E; lia|].
  rewrite take_app_length' by (symmetry; apply length_be_bytes).
  rewrite be_word_be_bytes.
  assert (Hpow : UINT32_MOD < 256 ^ Z.of_nat 32) by (vm_compute; reflexivity).
  rewrite Z.mod_small by lia.
  destruct (Z.ltb_spec v UINT32_MOD); [reflexivity|lia].
Qed.

Lemma abi_decode_empty : abi_decode_uint32 (abi_encode_words []) = None.
Proof. reflexivity. Qed.

Lemma index_bytes_be_bytes (n : nat) (b : Z) :
  (fun i => byte_of_Z (Z.shiftr b (8 * (Z.of_nat n - 1 - Z.of_nat i))))
    <$> seq 0 n
  = be_bytes n b.
Proof.
  revert b. induction n as [|n IH]; intros b; [reflexivity|].
  rewrite seq_S, fmap_app. cbn [be_bytes]. f_equal.
  - rewrite <- IH. apply list_fmap_ext. intros i j Hj.
    apply lookup_seq in Hj as [-> Hi]. cbn [Nat.add].
    f_equal. change (b / 256) with (b / 2 ^ 8).
    rewrite <- (Z.shiftr_div_pow2 b 8) by lia.
    rewrite Z.shiftr_shiftr by lia. f_equal. lia.
  - cbn. do 2 f_equal.
    replace (8 * (Z.of_nat (S n) - 1 - Z.of_nat n)) with 0 by lia.
    apply Z.shiftr_0_r.
Qed.

Lemma bytes32ToString_bytes (b : Z) :
  String.list_byte_of_string (bytes32ToString b) = be_bytes 32 b.
Proof.
  unfold bytes32ToString.
  rewrite String.list_byte_of_string_of_list_byte.
  apply (index_bytes_be_bytes 32 b).
Qed.

(** The key determines the handle: two votes are counted under one key
    only when their ciphertext handles are the same word. *)
Lemma bytes32ToString_inj (a b : Z) :
  0 <= a <= MAX_UINT256 -> 0 <= b <= MAX_UINT256 ->
  bytes32ToString a = bytes32ToString b -> a = b.
Proof.
  intros Ha Hb E.
  apply (f_equal String.list_byte_of_string) in E.
  rewrite !bytes32ToString_bytes in E.
  apply (f_equal be_word) in E. rewrite !be_word_be_bytes in E.
  assert (Hp : 256 ^ Z.of_nat 32 = MAX_UINT256 + 1)
    by (vm_compute; reflexivity).
  rewrite !Z.mod_small in E by lia. exact E.
Qed.

(** ** The aggregation loop *)

Section Aggregation.

Context {F : FHEVM}.

Lemma same_but_counts_refl (s : State) : same_but_counts s s.
Proof. repeat split. Qed.

Lemma aggregate_loop_frame (n : nat) (i : Z) (s : State) :
  same_but_counts s (aggregate_loop n i s).
Proof.
  revert i s. induction n as [|n IH]; intros i s; simpl.
  - apply same_but_counts_refl.
  - destruct (IH (i + 1) (aggregate_body i s)) as (H1 & H2 & H3 & H4 & H5 & H6 & H7).
    repeat split; assumption.
Qed.

Lemma keys_range_frame (s s' : State) (i : Z) (n : nat) :
  encryptedVotes s' = encryptedVotes s -> keys_range s' i n = keys_range s i n.
Proof. intros E. unfold keys_range, vote_at. now rewrite E. Qed.

Lemma keys_range_S (s : State) (i : Z) (n : nat) :
  keys_range s i (S n)
  = choice_key (vote_at s (i + 1)) :: keys_range s (i + 1) n.
Proof.
  unfold keys_range. rewrite seqZ_cons by lia. cbn [fmap list_fmap].
  do 3 f_equal; lia.
Qed.

Lemma ledger_keys_range (s : State) :
  ledger_keys s = keys_range s 0 (Z.to_nat (voteCount s)).
Proof.
  unfold ledger_keys, keys_range, seqZ. now rewrite Nat2Z.id.
Qed.

Lemma count_key_cons (k k0 : string) (l : list string) :
  count_key k (k0 :: l)
  = if decide (k0 = k) then S (count_key k l) else count_key k l.
Proof.
  unfold count_key. rewrite filter_cons. now destruct (decide (k0 = k)).
Qed.

Lemma count_key_app (k : string) (l1 l2 : list string) :
  count_key k (l1 ++ l2) = (count_key k l1 + count_key k l2)%nat.
Proof. unfold count_key. now rewrite filter_app, length_app. Qed.

Lemma getEncryptedChoiceCount_set_count (s : State) (k0 k : string) (h : Z) :
  getEncryptedChoiceCount (set_count k0 h s) k
  = if decide (k0 = k) then h else getEncryptedChoiceCount s k.
Proof.
  unfold getEncryptedChoiceCount, set_count. cbn [encryptedChoiceCount].
  rewrite lookup_insert. now destruct (decide (k0 = k)).
Qed.

(** The handle a tally holds after [n] iterations from index [i]: one
    [FHE.add] of an encrypted one for each entry read that has the key. *)
Lemma aggregate_loop_count (n : nat) (i : Z) (s : State) (k : string) :
  getEncryptedChoiceCount (aggregate_loop n i s) k
  = Nat.iter (count_key k (keys_range s i n)) fold_vote
      (getEncryptedChoiceCount s k).
Proof.
  revert i s. induction n as [|n IH]; intros i s.
  - reflexivity.
  - cbn [aggregate_loop]. rewrite IH, keys_range_S, count_key_cons.
    rewrite (keys_range_frame s (aggregate_body i s)) by reflexivity.
    unfold aggregate_body at 1. rewrite getEncryptedChoiceCount_set_count.
    fold (choice_key (vote_at s (i + 1))).
    destruct (decide (choice_key (vote_at s (i + 1)) = k)) as [->|Hne].
    + now rewrite Nat.iter_succ_r.
    + reflexivity.
Qed.

Lemma step_aggregate (s : State) :
  step AggregateVotes s = aggregate_loop (Z.to_nat (voteCount s)) 0 s.
Proof. reflexivity. Qed.

Lemma step_aggregate_frame (s : State) :
  same_but_counts s (step AggregateVotes s).
Proof. rewrite step_aggregate. apply aggregate_loop_frame. Qed.

Lemma ledger_keys_frame (s s' : State) :
  voteCount s' = voteCount s -> encryptedVotes s' = encryptedVotes s ->
  ledger_keys s' = ledger_keys s.
Proof. intros E1 E2. unfold ledger_keys, vote_at. now rewrite E1, E2. Qed.

Lemma step_aggregate_count (s : State) (k : string) :
  getEncryptedChoiceCount (step AggregateVotes s) k
  = Nat.iter (count_key k (ledger_keys s)) fold_vote
      (getEncryptedChoiceCount s k).
Proof. now rewrite step_aggregate, aggregate_loop_count, ledger_keys_range. Qed.

Context {L : FHEVMLaws F}.

Lemma decrypt_fold_vote (h : Z) :
  decrypt (fold_vote h) = (decrypt h + 1) mod UINT32_MOD.
Proof.
  unfold fold_vote. rewrite decrypt_add, decrypt_asEuint32.
  now rewrite Z.add_mod_idemp_r by (unfold UINT32_MOD; lia).
Qed.

Lemma decrypt_iter_pos (c : nat) (h : Z) :
  (0 < c)%nat ->
  decrypt (Nat.iter c fold_vote h) = (decrypt h + Z.of_nat c) mod UINT32_MOD.
Proof.
  induction c as [|c IH]; intros Hc; [lia|].
  rewrite Nat.iter_succ, decrypt_fold_vote.
  destruct c as [|c].
  - reflexivity.
  - rewrite IH by lia.
    rewrite Z.add_mod_idemp_l by (unfold UINT32_MOD; lia).
    f_equal. lia.
Qed.

Lemma decrypt_iter (c : nat) (h : Z) :
  0 <= decrypt h < UINT32_MOD ->
  decrypt (Nat.iter c fold_vote h) = (decrypt h + Z.of_nat c) mod UINT32_MOD.
Proof.
  intros Hr. destruct c as [|c].
  - simpl. rewrite Z.add_0_r. symmetry. now apply Z.mod_small.
  - apply decrypt_iter_pos. lia.
Qed.


End Aggregation.

(** ** What each function does to the storage *)

Section Effects.

Context {F : FHEVM}.

Lemma ledger_keys_store_vote (v : EncryptedVote) (s : State) :
  0 <= voteCount s ->
  ledger_keys (store_vote v s) = ledger_keys s ++ [choice_key v].
Proof.
  intros Hc. unfold ledger_keys. cbn [voteCount store_vote].
  rewrite seqZ_app by lia. rewrite fmap_app. f_equal.
  - apply list_fmap_ext. intros i j Hj.
    apply lookup_seqZ in Hj as [-> Hi].
    unfold vote_at. cbn [encryptedVotes store_vote].
    rewrite lookup_insert_ne by lia. reflexivity.
  - rewrite seqZ_cons by lia. rewrite seqZ_nil by lia. cbn [fmap list_fmap].
    unfold vote_at. cbn [encryptedVotes store_vote].
    replace (1 + voteCount s) with (voteCount s + 1) by lia.
    now rewrite lookup_insert_eq.
Qed.

(** The effect of a vote submission that does not revert. *)
Lemma submit_inv (now voter choice : Z) (s s' : State) :
  submitEncryptedVote now voter choice s = Ok s' ->
  let v := {| voterId := voter; encryptedChoice := choice; timestamp := now |} in
  let k := bytes32ToString (FHE_toBytes32 choice) in
  voteCount s + 1 <= MAX_UINT256 /\
  voteCount s' = voteCount s + 1 /\
  encryptedVotes s' = <[voteCount s + 1 := v]> (encryptedVotes s) /\
  decryptionRequests s' = decryptionRequests s /\
  counterRequest s' = counterRequest s /\
  requestedHandles s' = requestedHandles s /\
  events s' = events s ++ [VoteSubmitted voter now] /\
  ((getEncryptedChoiceCount s k <> 0 /\
    encryptedChoiceCount s' = encryptedChoiceCount s /\
    choiceList s' = choiceList s) \/
   (getEncryptedChoiceCount s k = 0 /\
    encryptedChoiceCount s' = <[k := FHE_asEuint32 0]> (encryptedChoiceCount s) /\
    choiceList s' = choiceList s ++ [k])).
Proof.
  unfold submitEncryptedVote.
  destruct (Z.ltb_spec MAX_UINT256 (voteCount s + 1)) as [Hov|Hov];
    [discriminate|].
  unfold FHE_isInitialized.
  change (getEncryptedChoiceCount (store_vote ?v s) ?k)
    with (getEncryptedChoiceCount s k).
  destruct (Z.eqb_spec (getEncryptedChoiceCount s (bytes32ToString (FHE_toBytes32 choice))) 0)
    as [E|E]; cbn [negb]; intros [= <-]; cbn;
    repeat split; try reflexivity; try assumption.
  - right. repeat split. assumption.
  - left. repeat split. assumption.
Qed.

Lemma submit_ok (now voter choice : Z) (s : State) :
  voteCount s + 1 <= MAX_UINT256 ->
  exists s', submitEncryptedVote now voter choice s = Ok s'.
Proof.
  intros H. unfold submitEncryptedVote.
  destruct (Z.ltb_spec MAX_UINT256 (voteCount s + 1)); [lia|]. eauto.
Qed.

Lemma submit_ledger (now voter choice : Z) (s s' : State) :
  0 <= voteCount s ->
  submitEncryptedVote now voter choice s = Ok s' ->
  ledger_keys s' = ledger_keys s ++ [bytes32ToString (FHE_toBytes32 choice)].
Proof.
  intros Hc H. apply submit_inv in H as (_ & H1 & H2 & _).
  transitivity (ledger_keys (store_vote
    {| voterId := voter; encryptedChoice := choice; timestamp := now |} s)).
  - apply ledger_keys_frame; assumption.
  - now apply ledger_keys_store_vote.
Qed.

(** The effect of a decryption request that does not revert. *)
Lemma request_inv (choice : string) (s s' : State) :
  requestChoiceDecryption choice s = Ok s' ->
  let id := counterRequest s in
  getEncryptedChoiceCount s choice <> 0 /\
  voteCount s' = voteCount s /\
  encryptedVotes s' = encryptedVotes s /\
  encryptedChoiceCount s' = encryptedChoiceCount s /\
  choiceList s' = choiceList s /\
  decryptionRequests s' = <[id := choice_hash choice]> (decryptionRequests s) /\
  counterRequest s' = id + 1 /\
  requestedHandles s'
  = <[id := [getEncryptedChoiceCount s choice]]> (requestedHandles s) /\
  events s' = events s ++ [DecryptionRequested id].
Proof.
  unfold requestChoiceDecryption, FHE_isInitialized.
  destruct (Z.eqb_spec (getEncryptedChoiceCount s choice) 0) as [E|E];
    cbn [negb]; [discriminate|].
  intros [= <-]. cbn. repeat split; try reflexivity. assumption.
Qed.

Lemma request_ok (choice : string) (s : State) :
  getEncryptedChoiceCount s choice <> 0 ->
  exists s', requestChoiceDecryption choice s = Ok s'.
Proof.
  intros H. unfold requestChoiceDecryption, FHE_isInitialized.
  destruct (Z.eqb_spec (getEncryptedChoiceCount s choice) 0); [lia|].
  cbn [negb]. eauto.
Qed.

(** The effect of a callback that does not revert. *)
Lemma callback_inv (requestId : Z) (cleartexts proof : list byte)
    (s s' : State) :
  decryptChoiceCount requestId cleartexts proof s = Ok s' ->
  exists choice count,
    getChoiceFromHash s (request_at s requestId) = Ok choice /\
    FHE_checkSignatures s requestId cleartexts proof = Ok tt /\
    abi_decode_uint32 cleartexts = Some count /\
    s' = emit (VoteCountDecrypted choice count) s.
Proof.
  unfold decryptChoiceCount.
  destruct (getChoiceFromHash s (request_at s requestId)) as [choice|r];
    cbn; [|discriminate].
  destruct (FHE_checkSignatures s requestId cleartexts proof) as [[]|r];
    cbn; [|discriminate].
  destruct (abi_decode_uint32 cleartexts) as [count|]; [|discriminate].
  intros [= <-]. eauto 10.
Qed.

Lemma callback_ok (requestId : Z) (cleartexts proof : list byte)
    (s : State) (choice : string) (count : Z) :
  getChoiceFromHash s (request_at s requestId) = Ok choice ->
  FHE_checkSignatures s requestId cleartexts proof = Ok tt ->
  abi_decode_uint32 cleartexts = Some count ->
  decryptChoiceCount requestId cleartexts proof s
  = Ok (emit (VoteCountDecrypted choice count) s).
Proof.
  intros H1 H2 H3. unfold decryptChoiceCount. rewrite H1. cbn.
  rewrite H2. cbn. now rewrite H3.
Qed.

End Effects.

(** ** The invariant of the storage *)

Section Invariant.

Context {F : FHEVM} {L : FHEVMLaws F}.

Lemma count_frame (s s' : State) (k : string) :
  encryptedChoiceCount s' = encryptedChoiceCount s ->
  getEncryptedChoiceCount s' k = getEncryptedChoiceCount s k.
Proof. intros E. unfold getEncryptedChoiceCount. now rewrite E. Qed.

Lemma tally_frame (s s' : State) (k : string) :
  encryptedChoiceCount s' = encryptedChoiceCount s -> tally s' k = tally s k.
Proof. intros E. unfold tally. now rewrite (count_frame s s'). Qed.

Lemma count_insert (s s' : State) (k0 k : string) (h : Z) :
  encryptedChoiceCount s' = <[k0 := h]> (encryptedChoiceCount s) ->
  getEncryptedChoiceCount s' k
  = if decide (k0 = k) then h else getEncryptedChoiceCount s k.
Proof.
  intros E. unfold getEncryptedChoiceCount. rewrite E, lookup_insert.
  now destruct (decide (k0 = k)).
Qed.

Lemma count_key_pos (k : string) (l : list string) :
  (0 < count_key k l)%nat -> k ∈ l.
Proof.
  unfold count_key. intros H.
  destruct (filter (fun k' => k' = k) l) as [|x l'] eqn:E; [simpl in H; lia|].
  assert (Hx : x ∈ filter (fun k' => k' = k) l) by (rewrite E; left).
  apply list_elem_of_filter in Hx as [-> Hx]. exact Hx.
Qed.

Lemma count_key_zero (k : string) (l : list string) :
  k ∉ l -> count_key k l = 0%nat.
Proof.
  intros H. destruct (count_key k l) eqn:E; [reflexivity|].
  exfalso. apply H, count_key_pos. lia.
Qed.

Lemma wf_init : wf init.
Proof.
  split; cbn.
  - constructor.
  - intros k. unfold getEncryptedChoiceCount. cbn. rewrite lookup_empty. cbn.
    split; [intros H; inversion H|congruence].
  - intros k H. inversion H.
  - unfold MAX_UINT256. lia.
  - intros k. unfold tally, getEncryptedChoiceCount. cbn.
    rewrite lookup_empty. cbn. rewrite decrypt_uninitialized.
    unfold UINT32_MOD. lia.
  - lia.
  - intros id [x Hx]. rewrite lookup_empty in Hx. discriminate.
  - intros id c Hc. rewrite lookup_empty in Hc. discriminate.
  - intros id _. apply lookup_empty.
Qed.

Lemma wf_submit (now voter choice : Z) (s s' : State) :
  wf s -> submitEncryptedVote now voter choice s = Ok s' -> wf s'.
Proof.
  intros W H. pose proof (submit_ledger now voter choice s s' (proj1 (wf_count s W)) H) as Hl.
  apply submit_inv in H as (Hov & Hvc & Hvotes & Hreq & Hctr & Hh & _ & Hreg).
  cbv zeta in Hreg. set (k0 := bytes32ToString (FHE_toBytes32 choice)) in *.
  destruct Hreg as [(Hk & Hcnt & Hlist)|(Hk & Hcnt & Hlist)].
  - (* the key is already registered *)
    split.
    + rewrite Hlist. apply W.
    + intros k. rewrite Hlist, (count_frame s s') by assumption. apply W.
    + intros k. rewrite Hl, Hlist, elem_of_app, list_elem_of_singleton.
      intros [Hin| ->]; [now apply (wf_ledger s W)|].
      apply (proj2 (wf_listed s W k0)). exact Hk.
    + rewrite Hvc. pose proof (wf_count s W). lia.
    + intros k. rewrite (tally_frame s s') by assumption. apply W.
    + rewrite Hctr. apply W.
    + intros id. rewrite Hh, Hctr. apply W.
    + intros id c. rewrite Hreq, Hh, Hlist. apply W.
    + intros id. rewrite Hreq, Hh. apply W.
  - (* the key is registered by this submission *)
    assert (Hnot : k0 ∉ choiceList s).
    { intros Hin. now apply (wf_listed s W) in Hin. }
    split.
    + rewrite Hlist. apply NoDup_app. split; [apply W|]. split.
      * intros x Hx Hx'. apply list_elem_of_singleton in Hx'. now subst.
      * apply NoDup_singleton.
    + intros k. rewrite Hlist, (count_insert s s' k0 k _ Hcnt).
      rewrite elem_of_app, list_elem_of_singleton.
      destruct (decide (k0 = k)) as [->|Hne].
      * split; [intros _; apply asEuint32_initialized|auto].
      * rewrite (wf_listed s W). split; [intros [H| ->]; congruence|auto].
    + intros k. rewrite Hl, Hlist, !elem_of_app.
      intros [Hin|Hin]; [left; now apply (wf_ledger s W)|now right].
    + rewrite Hvc. pose proof (wf_count s W). lia.
    + intros k. unfold tally. rewrite (count_insert s s' k0 k _ Hcnt).
      destruct (decide (k0 = k)) as [->|Hne]; [|apply W].
      rewrite decrypt_asEuint32. apply Z.mod_pos_bound. unfold UINT32_MOD. lia.
    + rewrite Hctr. apply W.
    + intros id. rewrite Hh, Hctr. apply W.
    + intros id c. rewrite Hreq, Hh, Hlist. intros Hc.
      destruct (wf_request s W id c Hc) as (k & h & H1 & H2 & H3 & H4).
      exists k, h. rewrite elem_of_app. auto.
    + intros id. rewrite Hreq, Hh. apply W.
Qed.

Lemma wf_aggregate (s : State) : wf s -> wf (step AggregateVotes s).
Proof.
  intros W.
  destruct (step_aggregate_frame s) as (Hvc & Hvotes & Hlist & Hreq & Hctr & Hh & _).
  pose proof (ledger_keys_frame s _ Hvc Hvotes) as Hl.
  split.
  - rewrite Hlist. apply W.
  - intros k. rewrite Hlist, step_aggregate_count.
    destruct (count_key k (ledger_keys s)) as [|c] eqn:E.
    + apply W.
    + rewrite Nat.iter_succ. split; [intros _; apply add_initialized|].
      intros _. apply (wf_ledger s W), count_key_pos. lia.
  - intros k. rewrite Hl, Hlist. apply W.
  - rewrite Hvc. apply W.
  - intros k. unfold tally. rewrite step_aggregate_count.
    rewrite decrypt_iter by apply (wf_range s W).
    apply Z.mod_pos_bound. unfold UINT32_MOD. lia.
  - rewrite Hctr. apply W.
  - intros id. rewrite Hh, Hctr. apply W.
  - intros id c. rewrite Hreq, Hh, Hlist. apply W.
  - intros id. rewrite Hreq, Hh. apply W.
Qed.

Lemma wf_pending_fresh (s : State) (id : Z) :
  wf s -> is_Some (decryptionRequests s !! id) -> 0 <= id < counterRequest s.
Proof.
  intros W [c Hc]. destruct (wf_request s W id c Hc) as (k & h & _ & _ & Hh & _).
  apply (wf_fresh s W). now rewrite Hh.
Qed.

Lemma wf_request_ok (choice : string) (s s' : State) :
  wf s -> requestChoiceDecryption choice s = Ok s' -> wf s'.
Proof.
  intros W H.
  apply request_inv in H as (Hk & Hvc & Hvotes & Hcnt & Hlist & Hreq & Hctr & Hh & _).
  cbv zeta in *. pose proof (wf_counter s W) as H0.
  split.
  - rewrite Hlist. apply W.
  - intros k. rewrite Hlist, (count_frame s s') by assumption. apply W.
  - intros k. rewrite (ledger_keys_frame s s'), Hlist by assumption. apply W.
  - rewrite Hvc. apply W.
  - intros k. rewrite (tally_frame s s') by assumption. apply W.
  - lia.
  - intros id. rewrite Hh, Hctr, lookup_insert.
    destruct (decide (counterRequest s = id)) as [<-|Hne]; [lia|].
    intros Hs. apply (wf_fresh s W) in Hs. lia.
  - intros id c. rewrite Hreq, Hh, Hlist, !lookup_insert.
    destruct (decide (counterRequest s = id)) as [<-|Hne].
    + intros [= <-]. exists choice, (getEncryptedChoiceCount s choice).
      repeat split; try apply (wf_range s W choice).
      apply (proj2 (wf_listed s W choice)). exact Hk.
    + apply W.
  - intros id. rewrite Hreq, Hh, !lookup_insert.
    destruct (decide (counterRequest s = id)); [discriminate|apply W].
Qed.

Lemma wf_emit (e : event) (s : State) : wf s -> wf (emit e s).
Proof. intros W. split; apply W. Qed.

Lemma wf_step (c : call) (s : State) : wf s -> wf (step c s).
Proof.
  intros W. destruct c as [now voter choice| |choice|id ct pf].
  - unfold step. cbn [execute].
    destruct (submitEncryptedVote now voter choice s) eqn:E; [|exact W].
    eapply wf_submit; eassumption.
  - now apply wf_aggregate.
  - unfold step. cbn [execute].
    destruct (requestChoiceDecryption choice s) eqn:E; [|exact W].
    eapply wf_request_ok; eassumption.
  - unfold step. cbn [execute].
    destruct (decryptChoiceCount id ct pf s) eqn:E; [|exact W].
    apply callback_inv in E as (ch & n & _ & _ & _ & ->). now apply wf_emit.
Qed.

Lemma reachable_wf (s : State) : reachable s -> wf s.
Proof. induction 1; [apply wf_init|now apply wf_step]. Qed.

Lemma reachable_run (cs : list call) (s : State) :
  reachable s -> reachable (run cs s).
Proof.
  revert s. induction cs as [|c cs IH]; intros s H; [exact H|].
  cbn. apply IH. now constructor.
Qed.

End Invariant.

(** ** The concrete capability satisfies the laws *)

Lemma toy_laws : FHEVMLaws Toy.toy.
Proof.
  assert (HM : 0 < UINT32_MOD) by (unfold UINT32_MOD; lia).
  assert (Hd : forall x, Toy.toy_decrypt (x mod UINT32_MOD + 1) = x mod UINT32_MOD).
  { intros x. unfold Toy.toy_decrypt.
    pose proof (Z.mod_pos_bound x UINT32_MOD HM).
    destruct (Z.eqb_spec (x mod UINT32_MOD + 1) 0); [lia|].
    rewrite Z.add_simpl_r. apply Z.mod_mod. lia. }
  split; cbn.
  - intros v. pose proof (Z.mod_pos_bound v UINT32_MOD HM). lia.
  - intros a b.
    pose proof (Z.mod_pos_bound (Toy.toy_decrypt a + Toy.toy_decrypt b) UINT32_MOD HM).
    lia.
  - reflexivity.
  - intros v. apply Hd.
  - intros a b. apply Hd.
  - intros hs ct pf H. apply andb_prop in H as [H _].
    now apply bool_decide_eq_true in H.
Qed.

(** * The claims *)

(** ** C1: aggregating twice *)

Section AggregateTwice.

Context {F : FHEVM} {L : FHEVMLaws F}.


End AggregateTwice.



(** ** C4, C5, C9, C10: the ledger and the choice registry *)

Section Registry.

Context {F : FHEVM}.

Lemma registered_iff (s : State) (k : string) :
  registered s k <-> getEncryptedChoiceCount s k <> 0.
Proof.
  unfold registered, FHE_isInitialized.
  destruct (Z.eqb_spec (getEncryptedChoiceCount s k) 0); cbn; split;
    congruence.
Qed.

Lemma count_key_elem (k : string) (l : list string) :
  k ∈ l -> (0 < count_key k l)%nat.
Proof.
  intros H. unfold count_key.
  assert (Hk : k ∈ filter (fun k' => k' = k) l)
    by (apply list_elem_of_filter; auto).
  destruct (filter (fun k' => k' = k) l); [inversion Hk|simpl; lia].
Qed.

(** C4, as the code has it: a submission leaves the choice list and the
    tally mapping as they are when the key made of the bytes of the vote's
    ciphertext handle already has a tally, and otherwise registers that key:
    it gets an encrypted zero as tally and is appended to the choice
    list. *)
Theorem submit_registers_unseen_key (now voter choice : Z) (s s' : State) :
  submitEncryptedVote now voter choice s = Ok s' ->
  let k := bytes32ToString (FHE_toBytes32 choice) in
  (registered s k ->
   choiceList s' = choiceList s /\
   encryptedChoiceCount s' = encryptedChoiceCount s) /\
  (~ registered s k ->
   choiceList s' = choiceList s ++ [k] /\
   encryptedChoiceCount s'
   = <[k := FHE_asEuint32 0]> (encryptedChoiceCount s)).
Proof.
  intros H k. apply submit_inv in H as (_ & _ & _ & _ & _ & _ & _ & Hreg).
  fold k in Hreg. rewrite registered_iff.
  destruct Hreg as [(Hk & Hc & Hl)|(Hk & Hc & Hl)]; split; intros Hr;
    try contradiction; auto.
Qed.

(** C9: a second submission by the same voter goes through like the first:
    unless the 256-bit vote counter is exhausted, both succeed, each appends
    the ledger entry with the next id and emits its event; nothing looks at
    earlier entries of the voter, and the modifier [onlyVoter] would not
    either. *)
Theorem submit_twice_same_voter (now1 now2 voter choice1 choice2 : Z)
    (s : State) :
  0 <= voteCount s -> voteCount s + 2 <= MAX_UINT256 ->
  exists s1 s2,
    submitEncryptedVote now1 voter choice1 s = Ok s1 /\
    submitEncryptedVote now2 voter choice2 s1 = Ok s2 /\
    voteCount s1 = voteCount s + 1 /\
    voteCount s2 = voteCount s + 2 /\
    encryptedVotes s2 !! (voteCount s + 1)
    = Some {| voterId := voter; encryptedChoice := choice1;
              timestamp := now1 |} /\
    encryptedVotes s2 !! (voteCount s + 2)
    = Some {| voterId := voter; encryptedChoice := choice2;
              timestamp := now2 |} /\
    (forall i, i <> voteCount s + 1 -> i <> voteCount s + 2 ->
               encryptedVotes s2 !! i = encryptedVotes s !! i) /\
    events s2
    = events s ++ [VoteSubmitted voter now1; VoteSubmitted voter now2] /\
    onlyVoter voter (submitEncryptedVote now2 voter choice2 s1) = Ok s2.
Proof.
  intros H0 Hmax.
  destruct (submit_ok now1 voter choice1 s) as [s1 E1]; [lia|].
  pose proof (submit_inv _ _ _ _ _ E1) as (_ & Hvc1 & Hv1 & _ & _ & _ & He1 & _).
  destruct (submit_ok now2 voter choice2 s1) as [s2 E2]; [lia|].
  pose proof (submit_inv _ _ _ _ _ E2) as (_ & Hvc2 & Hv2 & _ & _ & _ & He2 & _).
  exists s1, s2. repeat split; try assumption.
  - lia.
  - rewrite Hv2, Hv1, Hvc1. rewrite lookup_insert_ne by lia.
    apply lookup_insert_eq.
  - rewrite Hv2, Hvc1. replace (voteCount s + 1 + 1) with (voteCount s + 2) by lia.
    apply lookup_insert_eq.
  - intros i Hi1 Hi2. rewrite Hv2, Hv1, Hvc1.
    rewrite !lookup_insert_ne by lia. reflexivity.
  - rewrite He2, He1, <- app_assoc. reflexivity.
Qed.

Context {L : FHEVMLaws F}.


(** How a call changes the choice list: not at all, or by appending one
    key that had no tally and now has an encrypted zero. *)
Lemma step_choiceList (c : call) (s : State) :
  choiceList (step c s) = choiceList s \/
  exists k, choiceList (step c s) = choiceList s ++ [k] /\
    getEncryptedChoiceCount s k = 0 /\
    getEncryptedChoiceCount (step c s) k = FHE_asEuint32 0.
Proof.
  destruct c as [now voter choice| |choice|id ct pf]; unfold step;
    cbn [execute].
  - destruct (submitEncryptedVote now voter choice s) as [s'|] eqn:E;
      [|now left].
    apply submit_inv in E as (_ & _ & _ & _ & _ & _ & _ & Hreg).
    destruct Hreg as [(Hk & Hc & Hl)|(Hk & Hc & Hl)]; [now left|].
    right. eexists. split; [exact Hl|]. split; [exact Hk|].
    rewrite (count_insert s s' _ _ _ Hc). now rewrite decide_True.
  - left. apply (step_aggregate_frame s).
  - destruct (requestChoiceDecryption choice s) as [s'|] eqn:E; [|now left].
    left. now apply request_inv in E.
  - destruct (decryptChoiceCount id ct pf s) as [s'|] eqn:E; [|now left].
    apply callback_inv in E as (ch & n & _ & _ & _ & ->). now left.
Qed.

Lemma step_prefix (c : call) (s : State) :
  choiceList s `prefix_of` choiceList (step c s).
Proof.
  destruct (step_choiceList c s) as [->|(k & -> & _)];
    [reflexivity|apply prefix_app_r; reflexivity].
Qed.

(** A vote submission leaves the tallies of the listed keys alone. *)
Lemma submit_keeps_listed (now voter choice : Z) (s : State) (k : string) :
  wf s -> k ∈ choiceList s ->
  getEncryptedChoiceCount (step (SubmitEncryptedVote now voter choice) s) k
  = getEncryptedChoiceCount s k.
Proof.
  intros W Hk. unfold step. cbn [execute].
  destruct (submitEncryptedVote now voter choice s) as [s'|] eqn:E;
    [|reflexivity].
  apply submit_inv in E as (_ & _ & _ & _ & _ & _ & _ & Hreg).
  destruct Hreg as [(Hk0 & Hc & Hl)|(Hk0 & Hc & Hl)].
  - now apply count_frame.
  - rewrite (count_insert s s' _ _ _ Hc).
    destruct (decide (bytes32ToString (FHE_toBytes32 choice) = k)) as [<-|];
      [|reflexivity].
    now apply (wf_listed s W) in Hk.
Qed.

(** C10: in every reachable state the choice list has no duplicates and
    lists exactly the keys whose tally is initialized; every call keeps the
    list as a prefix of the new one and keeps the listed keys initialized; a
    submission does not touch the tally of a listed key; and a key that
    enters the list is appended at the end with an encrypted zero as
    tally. *)
Theorem choice_list_invariant (s : State) :
  reachable s ->
  NoDup (choiceList s) /\
  (forall k, k ∈ choiceList s <-> registered s k) /\
  forall c,
    choiceList s `prefix_of` choiceList (step c s) /\
    (forall k, k ∈ choiceList s -> registered (step c s) k) /\
    (forall now voter choice k,
       c = SubmitEncryptedVote now voter choice -> k ∈ choiceList s ->
       getEncryptedChoiceCount (step c s) k = getEncryptedChoiceCount s k) /\
    (forall k, k ∉ choiceList s -> k ∈ choiceList (step c s) ->
       choiceList (step c s) = choiceList s ++ [k] /\
       getEncryptedChoiceCount (step c s) k = FHE_asEuint32 0).
Proof.
  intros R. pose proof (reachable_wf s R) as W.
  split; [apply W|]. split.
  { intros k. rewrite registered_iff. apply W. }
  intros c. pose proof (wf_step c s W) as W'.
  split; [apply step_prefix|]. split; [|split].
  - intros k Hk. apply registered_iff, (wf_listed _ W').
    destruct (step_prefix c s) as [l ->]. apply elem_of_app. now left.
  - intros now voter choice k -> Hk. now apply submit_keeps_listed.
  - intros k Hk Hk'.
    destruct (step_choiceList c s) as [E|(k0 & E & H0 & H1)].
    + rewrite E in Hk'. contradiction.
    + rewrite E in Hk'. apply elem_of_app in Hk' as [Hk'|Hk'];
        [contradiction|].
      apply list_elem_of_singleton in Hk' as ->. auto.
Qed.

End Registry.

Lemma reachable_one_vote : reachable Toy.one_vote.
Proof. apply reachable_step, reachable_init. Qed.

Lemma submit_registers_witness :
  choiceList Toy.one_vote = [Toy.kA] /\
  encryptedChoiceCount Toy.one_vote = <[Toy.kA := 1]> ∅.
Proof.
  assert (E : submitEncryptedVote 1000 7 Toy.hA init = Ok Toy.one_vote)
    by (vm_compute; reflexivity).
  destruct (submit_registers_unseen_key 1000 7 Toy.hA init Toy.one_vote E)
    as [_ H].
  apply H. vm_compute. discriminate.
Defined.

(** C4 as the spec states it fails: the first vote cast with a handle puts
    the handle's bytes on the choice list and gives them a tally. *)
Lemma submit_changes_registry :
  let s' := step (SubmitEncryptedVote 1000 7 Toy.hA) init in
  choiceList init = [] /\ choiceList s' = [Toy.kA] /\
  ~ registered init Toy.kA /\ registered s' Toy.kA.
Proof.
  cbv zeta. split; [reflexivity|]. split; [vm_compute; reflexivity|].
  split; vm_compute; [discriminate|reflexivity].
Qed.

Lemma submit_twice_witness :
  exists s1 s2,
    submitEncryptedVote 1000 7 Toy.hA init = Ok s1 /\
    submitEncryptedVote 1001 7 Toy.hB s1 = Ok s2 /\
    voteCount s1 = 1 /\ voteCount s2 = 2 /\
    encryptedVotes s2 !! 1
    = Some {| voterId := 7; encryptedChoice := Toy.hA; timestamp := 1000 |} /\
    encryptedVotes s2 !! 2
    = Some {| voterId := 7; encryptedChoice := Toy.hB; timestamp := 1001 |} /\
    (forall i, i <> 1 -> i <> 2 ->
               encryptedVotes s2 !! i = (∅ : gmap Z EncryptedVote) !! i) /\
    events s2 = [VoteSubmitted 7 1000; VoteSubmitted 7 1001] /\
    onlyVoter 7 (submitEncryptedVote 1001 7 Toy.hB s1) = Ok s2.
Proof.
  apply (submit_twice_same_voter 1000 1001 7 Toy.hA Toy.hB init).
  - cbn. lia.
  - unfold MAX_UINT256. cbn. lia.
Defined.


Lemma choice_list_invariant_witness :
  NoDup (choiceList Toy.one_vote) /\
  (forall k, k ∈ choiceList Toy.one_vote <-> registered Toy.one_vote k) /\
  forall c,
    choiceList Toy.one_vote `prefix_of` choiceList (step c Toy.one_vote) /\
    (forall k, k ∈ choiceList Toy.one_vote ->
       registered (step c Toy.one_vote) k) /\
    (forall now voter choice k,
       c = SubmitEncryptedVote now voter choice ->
       k ∈ choiceList Toy.one_vote ->
       getEncryptedChoiceCount (step c Toy.one_vote) k
       = getEncryptedChoiceCount Toy.one_vote k) /\
    (forall k, k ∉ choiceList Toy.one_vote ->
       k ∈ choiceList (step c Toy.one_vote) ->
       choiceList (step c Toy.one_vote) = choiceList Toy.one_vote ++ [k] /\
       getEncryptedChoiceCount (step c Toy.one_vote) k = FHE_asEuint32 0).
Proof.
  apply (@choice_list_invariant Toy.toy toy_laws Toy.one_vote).
  exact reachable_one_vote.
Defined.

(** ** C2, C6, C7, C8: decryption requests and callbacks *)

Section Oracle.

Context {F : FHEVM}.

Lemma find_choice_inv (l : list string) (hash : Z) (k : string) :
  find_choice l hash = Ok k -> k ∈ l /\ choice_hash k = hash.
Proof.
  induction l as [|c l IH]; cbn; [discriminate|].
  destruct (Z.eqb_spec (choice_hash c) hash) as [E|E].
  - intros [= <-]. split; [left|exact E].
  - intros H. destruct (IH H). split; [now right|assumption].
Qed.

Lemma find_choice_revert (l : list string) (hash : Z) (r : revert_reason) :
  find_choice l hash = Revert r -> r = Error "Choice not found".
Proof.
  induction l as [|c l IH]; cbn; [congruence|].
  destruct (choice_hash c =? hash); [discriminate|exact IH].
Qed.

Lemma find_choice_app (l l' : list string) (hash : Z) (k : string) :
  find_choice l hash = Ok k -> find_choice (l ++ l') hash = Ok k.
Proof.
  induction l as [|c l IH]; cbn; [discriminate|].
  destruct (choice_hash c =? hash); auto.
Qed.

Lemma find_choice_elem (l : list string) (k : string) :
  k ∈ l -> exists k', find_choice l (choice_hash k) = Ok k'.
Proof.
  induction l as [|c l IH]; intros H; [inversion H|]. cbn.
  destruct (Z.eqb_spec (choice_hash c) (choice_hash k)) as [E|E]; [eauto|].
  apply IH. inversion H; subst; [congruence|assumption].
Qed.

Lemma find_choice_none (l : list string) (hash : Z) :
  (forall k, k ∈ l -> choice_hash k <> hash) ->
  find_choice l hash = Revert (Error "Choice not found").
Proof.
  induction l as [|c l IH]; intros H; [reflexivity|]. cbn.
  destruct (Z.eqb_spec (choice_hash c) hash) as [E|E].
  - exfalso. apply (H c); [left|exact E].
  - apply IH. intros k Hk. apply H. now right.
Qed.

(** The scan finds [X] itself when no other listed key has its hash. *)
Lemma find_choice_first (l : list string) (X : string) :
  X ∈ l ->
  (forall k, k ∈ l -> choice_hash k = choice_hash X -> k = X) ->
  find_choice l (choice_hash X) = Ok X.
Proof.
  intros HX Hinj. destruct (find_choice_elem l X HX) as [k' Hk'].
  rewrite Hk'. f_equal. apply find_choice_inv in Hk' as [H1 H2]. auto.
Qed.

Lemma checkSignatures_ok (s : State) (id : Z) (ct pf : list byte) :
  FHE_checkSignatures s id ct pf = Ok tt <->
  verifySignatures (default [] (requestedHandles s !! id)) ct pf = true.
Proof.
  unfold FHE_checkSignatures.
  destruct (verifySignatures _ ct pf); split; congruence.
Qed.

Lemma checkSignatures_cases (s : State) (id : Z) (ct pf : list byte) :
  FHE_checkSignatures s id ct pf = Ok tt \/
  FHE_checkSignatures s id ct pf = Revert InvalidSignatures.
Proof. unfold FHE_checkSignatures. destruct (verifySignatures _ ct pf); auto. Qed.

(** An event changes nothing a callback reads. *)
Lemma callback_emit (e : event) (id : Z) (ct pf : list byte) (s s' : State) :
  decryptChoiceCount id ct pf s = Ok s' ->
  exists e', s' = emit e' s /\
    decryptChoiceCount id ct pf (emit e s) = Ok (emit e' (emit e s)).
Proof.
  intros H. apply callback_inv in H as (k & n & H1 & H2 & H3 & ->).
  exists (VoteCountDecrypted k n). split; [reflexivity|].
  now apply callback_ok.
Qed.

Context {L : FHEVMLaws F}.

Lemma step_keeps_request (c : call) (s : State) (id v : Z) :
  wf s -> decryptionRequests s !! id = Some v ->
  decryptionRequests (step c s) !! id = Some v.
Proof.
  intros W H. destruct c as [now voter choice| |choice|rid ct pf].
  2: { destruct (step_aggregate_frame s) as (_ & _ & _ & E & _).
       now rewrite E. }
  all: unfold step; cbn [execute].
  - destruct (submitEncryptedVote now voter choice s) as [s'|] eqn:E;
      [|exact H].
    apply submit_inv in E as (_ & _ & _ & -> & _). exact H.
  - destruct (requestChoiceDecryption choice s) as [s'|] eqn:E; [|exact H].
    apply request_inv in E as (_ & _ & _ & _ & _ & -> & _).
    rewrite lookup_insert_ne; [exact H|].
    assert (0 <= id < counterRequest s)
      by (apply wf_pending_fresh; [exact W|now rewrite H]).
    lia.
  - destruct (decryptChoiceCount rid ct pf s) as [s'|] eqn:E; [|exact H].
    apply callback_inv in E as (k & n & _ & _ & _ & ->). exact H.
Qed.

Lemma step_keeps_handles (c : call) (s : State) (id : Z) (hs : list Z) :
  wf s -> requestedHandles s !! id = Some hs ->
  requestedHandles (step c s) !! id = Some hs.
Proof.
  intros W H. destruct c as [now voter choice| |choice|rid ct pf].
  2: { destruct (step_aggregate_frame s) as (_ & _ & _ & _ & _ & E & _).
       now rewrite E. }
  all: unfold step; cbn [execute].
  - destruct (submitEncryptedVote now voter choice s) as [s'|] eqn:E;
      [|exact H].
    apply submit_inv in E as (_ & _ & _ & _ & _ & -> & _). exact H.
  - destruct (requestChoiceDecryption choice s) as [s'|] eqn:E; [|exact H].
    apply request_inv in E as (_ & _ & _ & _ & _ & _ & _ & -> & _).
    rewrite lookup_insert_ne; [exact H|].
    assert (0 <= id < counterRequest s)
      by (apply (wf_fresh s W); now rewrite H).
    lia.
  - destruct (decryptChoiceCount rid ct pf s) as [s'|] eqn:E; [|exact H].
    apply callback_inv in E as (k & n & _ & _ & _ & ->). exact H.
Qed.

Lemma wf_run (cs : list call) (s : State) : wf s -> wf (run cs s).
Proof.
  revert s. induction cs as [|c cs IH]; intros s W; [exact W|].
  cbn. apply IH. now apply wf_step.
Qed.

Lemma run_keeps_request (cs : list call) (s : State) (id v : Z) :
  wf s -> decryptionRequests s !! id = Some v ->
  decryptionRequests (run cs s) !! id = Some v.
Proof.
  revert s. induction cs as [|c cs IH]; intros s W H; [exact H|].
  cbn. apply IH; [now apply wf_step|now apply step_keeps_request].
Qed.

Lemma run_keeps_handles (cs : list call) (s : State) (id : Z) (hs : list Z) :
  wf s -> requestedHandles s !! id = Some hs ->
  requestedHandles (run cs s) !! id = Some hs.
Proof.
  revert s. induction cs as [|c cs IH]; intros s W H; [exact H|].
  cbn. apply IH; [now apply wf_step|now apply step_keeps_handles].
Qed.

Lemma run_prefix (cs : list call) (s : State) :
  choiceList s `prefix_of` choiceList (run cs s).
Proof.
  revert s. induction cs as [|c cs IH]; intros s; [reflexivity|].
  cbn. etransitivity; [apply (step_prefix c s)|apply IH].
Qed.

(** A callback for a stored request with a proof that checks: the scan
    finds a choice, and the count decoded is the plaintext of the handle
    the request submitted. *)
Lemma callback_pending_valid (s : State) (id c : Z) (ct pf : list byte) :
  wf s -> decryptionRequests s !! id = Some c ->
  FHE_checkSignatures s id ct pf = Ok tt ->
  exists k h,
    find_choice (choiceList s) c = Ok k /\
    requestedHandles s !! id = Some [h] /\
    decryptChoiceCount id ct pf s
    = Ok (emit (VoteCountDecrypted k (decrypt h)) s).
Proof.
  intros W Hc Hsig.
  destruct (wf_request s W id c Hc) as (k0 & h & -> & Hk0 & Hh & Hr).
  destruct (find_choice_elem _ _ Hk0) as [k Hk].
  exists k, h. split; [exact Hk|]. split; [exact Hh|].
  apply callback_ok; [| exact Hsig |].
  - unfold getChoiceFromHash, request_at. rewrite Hc. exact Hk.
  - apply checkSignatures_ok in Hsig. rewrite Hh in Hsig. cbn in Hsig.
    apply verifySignatures_sound in Hsig as ->. cbn [fmap list_fmap].
    now apply abi_decode_encode.
Qed.

(** A callback for an id no request stored reverts. *)
Lemma callback_unknown (s : State) (id : Z) (ct pf : list byte) :
  wf s -> decryptionRequests s !! id = None ->
  exists r, decryptChoiceCount id ct pf s = Revert r.
Proof.
  intros W Hn. destruct (decryptChoiceCount id ct pf s) as [s'|r] eqn:E;
    [|eauto].
  exfalso. apply callback_inv in E as (k & n & _ & Hsig & Hdec & _).
  apply checkSignatures_ok in Hsig.
  rewrite (wf_handles s W id Hn) in Hsig. cbn in Hsig.
  apply verifySignatures_sound in Hsig as ->. discriminate.
Qed.

End Oracle.

Section OracleClaims.

Context {F : FHEVM} {L : FHEVMLaws F}.

(** C7: a request for a choice whose tally is not initialized reverts with
    "Choice not found" and leaves the storage as it was; in a reachable
    state a request for a registered choice succeeds, its id is the
    request counter, under which nothing was stored before, and it stores
    the hash of the choice and the tally's handle under that id and emits
    [DecryptionRequested]. *)
Theorem request_checks_registration (s : State) (X : string) :
  (~ registered s X ->
   requestChoiceDecryption X s = Revert (Error "Choice not found") /\
   step (RequestChoiceDecryption X) s = s) /\
  (reachable s -> registered s X ->
   exists s',
     requestChoiceDecryption X s = Ok s' /\
     decryptionRequests s !! counterRequest s = None /\
     requestedHandles s !! counterRequest s = None /\
     decryptionRequests s'
     = <[counterRequest s := choice_hash X]> (decryptionRequests s) /\
     requestedHandles s'
     = <[counterRequest s := [getEncryptedChoiceCount s X]]>
         (requestedHandles s) /\
     counterRequest s' = counterRequest s + 1 /\
     events s' = events s ++ [DecryptionRequested (counterRequest s)] /\
     encryptedChoiceCount s' = encryptedChoiceCount s /\
     choiceList s' = choiceList s).
Proof.
  split.
  - intros Hn.
    assert (E : requestChoiceDecryption X s = Revert (Error "Choice not found")).
    { unfold requestChoiceDecryption. unfold registered in Hn.
      destruct (FHE_isInitialized (getEncryptedChoiceCount s X));
        [contradiction|reflexivity]. }
    split; [exact E|]. unfold step. cbn [execute]. now rewrite E.
  - intros R HX. pose proof (reachable_wf s R) as W.
    apply registered_iff in HX.
    destruct (request_ok X s HX) as [s' E]. exists s'.
    pose proof (request_inv X s s' E)
      as (_ & _ & _ & Hc & Hl & Hreq & Hctr & Hh & He).
    assert (Hfresh : requestedHandles s !! counterRequest s = None).
    { destruct (requestedHandles s !! counterRequest s) eqn:Ex;
        [|reflexivity].
      assert (0 <= counterRequest s < counterRequest s)
        by (apply (wf_fresh s W); now rewrite Ex).
      lia. }
    repeat split; try assumption.
    destruct (decryptionRequests s !! counterRequest s) as [c|] eqn:Ex;
      [|reflexivity].
    destruct (wf_request s W _ _ Ex) as (k & h & _ & _ & Hh' & _).
    congruence.
Qed.

(** C8: a callback whose proof does not check reverts and leaves the
    storage as it was; when, in a reachable state, its request id is a
    stored one, the revert is the proof check's, and a later callback for
    the same id with a proof that checks succeeds. *)
Theorem callback_invalid_proof_isolated (s : State) (id : Z)
    (ct pf : list byte) :
  FHE_checkSignatures s id ct pf = Revert InvalidSignatures ->
  (exists r, decryptChoiceCount id ct pf s = Revert r) /\
  step (DecryptChoiceCount id ct pf) s = s /\
  (reachable s -> is_Some (decryptionRequests s !! id) ->
   decryptChoiceCount id ct pf s = Revert InvalidSignatures /\
   decryptionRequests (step (DecryptChoiceCount id ct pf) s) !! id
   = decryptionRequests s !! id /\
   forall ct' pf',
     FHE_checkSignatures s id ct' pf' = Ok tt ->
     is_ok (decryptChoiceCount id ct' pf'
              (step (DecryptChoiceCount id ct pf) s)) = true).
Proof.
  intros Hsig.
  assert (Hrev : exists r, decryptChoiceCount id ct pf s = Revert r).
  { unfold decryptChoiceCount.
    destruct (getChoiceFromHash s (request_at s id)); cbn; [|eauto].
    rewrite Hsig. cbn. eauto. }
  assert (Hstep : step (DecryptChoiceCount id ct pf) s = s).
  { destruct Hrev as [r Hr]. unfold step. cbn [execute]. now rewrite Hr. }
  split; [exact Hrev|]. split; [exact Hstep|].
  intros R [c Hc]. pose proof (reachable_wf s R) as W. rewrite Hstep.
  split; [|split; [reflexivity|]].
  - destruct (wf_request s W id c Hc) as (k0 & h & -> & Hk0 & _).
    destruct (find_choice_elem _ _ Hk0) as [k Hk].
    unfold decryptChoiceCount, getChoiceFromHash, request_at.
    rewrite Hc. cbn [from_option Datatypes.id]. rewrite Hk. cbn. now rewrite Hsig.
  - intros ct' pf' Hok.
    destruct (callback_pending_valid s id c ct' pf' W Hc Hok)
      as (k & h & _ & _ & ->).
    reflexivity.
Qed.

(** C2, as the code has it: in a reachable state a callback succeeds
    exactly when a request stored a commitment under its id and the proof
    checks; a callback for an id never requested reverts (with "Choice not
    found" when no listed choice hashes to zero).  But the commitment is
    never removed: a successful callback changes only the event log, and
    the same callback succeeds again and emits the same event. *)
Theorem callback_request_never_retired (s : State) (id : Z)
    (ct pf : list byte) :
  reachable s ->
  (is_ok (decryptChoiceCount id ct pf s) = true <->
   is_Some (decryptionRequests s !! id) /\
   FHE_checkSignatures s id ct pf = Ok tt) /\
  (decryptionRequests s !! id = None ->
   (exists r, decryptChoiceCount id ct pf s = Revert r) /\
   ((forall k, k ∈ choiceList s -> choice_hash k <> 0) ->
    decryptChoiceCount id ct pf s = Revert (Error "Choice not found"))) /\
  (forall s',
     decryptChoiceCount id ct pf s = Ok s' ->
     decryptionRequests s' = decryptionRequests s /\
     exists e, s' = emit e s /\
       decryptChoiceCount id ct pf s' = Ok (emit e s')).
Proof.
  intros R. pose proof (reachable_wf s R) as W. split; [|split].
  - split.
    + intros Hok.
      destruct (decryptChoiceCount id ct pf s) as [s'|] eqn:E;
        [|discriminate].
      split.
      * destruct (decryptionRequests s !! id) eqn:Ex; [eauto|].
        destruct (callback_unknown s id ct pf W Ex) as [r Hr]. congruence.
      * now apply callback_inv in E as (k & n & _ & Hsig & _).
    + intros [[c Hc] Hsig].
      destruct (callback_pending_valid s id c ct pf W Hc Hsig)
        as (k & h & _ & _ & ->).
      reflexivity.
  - intros Hn. split; [now apply callback_unknown|].
    intros Hz. unfold decryptChoiceCount, getChoiceFromHash, request_at.
    rewrite Hn. cbn [from_option Datatypes.id]. now rewrite (find_choice_none _ _ Hz).
  - intros s' E.
    destruct (callback_emit (VoteCountDecrypted "" 0) id ct pf s s' E)
      as (e & -> & _).
    split; [reflexivity|]. exists e. split; [reflexivity|].
    destruct (callback_emit e id ct pf s _ E) as (e' & He' & ->).
    f_equal. f_equal.
    apply (f_equal events) in He'. cbn in He'.
    apply app_inv_head in He'. congruence.
Qed.

(** C6: in a reachable state where [X] is registered and no other listed
    key has the hash of [X], a request for [X] succeeds, and after any calls
    whatever (votes, aggregations, other requests and callbacks) a callback
    for its id with a proof that checks emits [VoteCountDecrypted] with the
    choice [X] and the plaintext the tally of [X] had when the request was
    made. *)
Theorem request_callback_round_trip (s : State) (X : string)
    (cs : list call) (ct pf : list byte) :
  reachable s -> registered s X ->
  (forall k, k ∈ choiceList s -> choice_hash k = choice_hash X -> k = X) ->
  let id := counterRequest s in
  let s1 := step (RequestChoiceDecryption X) s in
  let s2 := run cs s1 in
  FHE_checkSignatures s2 id ct pf = Ok tt ->
  is_ok (requestChoiceDecryption X s) = true /\
  events s1 = events s ++ [DecryptionRequested id] /\
  decryptChoiceCount id ct pf s2
  = Ok (emit (VoteCountDecrypted X (tally s X)) s2).
Proof.
  intros R HX Hinj id s1 s2 Hsig. pose proof (reachable_wf s R) as W.
  apply registered_iff in HX.
  destruct (request_ok X s HX) as [s1' E].
  assert (Es1 : s1 = s1') by (unfold s1, step; cbn [execute]; now rewrite E).
  pose proof (request_inv X s s1' E)
    as (_ & _ & _ & _ & Hl & Hreq & _ & Hh & He).
  rewrite <- Es1 in Hl, Hreq, Hh, He.
  assert (W1 : wf s1) by (apply wf_step; exact W).
  assert (Hreq2 : decryptionRequests s2 !! id = Some (choice_hash X)).
  { apply run_keeps_request; [exact W1|]. rewrite Hreq. apply lookup_insert_eq. }
  assert (Hh2 : requestedHandles s2 !! id = Some [getEncryptedChoiceCount s X]).
  { apply run_keeps_handles; [exact W1|]. rewrite Hh. apply lookup_insert_eq. }
  split; [now rewrite E|]. split; [exact He|].
  apply callback_ok; [| exact Hsig |].
  - unfold getChoiceFromHash, request_at. rewrite Hreq2. cbn [from_option Datatypes.id].
    destruct (run_prefix cs s1) as [l' El]. fold s2 in El. rewrite El, Hl.
    apply find_choice_app, find_choice_first; [|exact Hinj].
    now apply (wf_listed s W).
  - apply checkSignatures_ok in Hsig. rewrite Hh2 in Hsig. cbn in Hsig.
    apply verifySignatures_sound in Hsig as ->. cbn [fmap list_fmap].
    apply abi_decode_encode, (wf_range s W X).
Qed.

End OracleClaims.

Lemma reachable_aggregated : reachable Toy.aggregated.
Proof. apply reachable_step, reachable_one_vote. Qed.

Lemma reachable_requested : reachable Toy.requested.
Proof. apply reachable_step, reachable_aggregated. Qed.

Lemma request_checks_registration_witness :
  (requestChoiceDecryption Toy.kB Toy.aggregated
   = Revert (Error "Choice not found") /\
   step (RequestChoiceDecryption Toy.kB) Toy.aggregated = Toy.aggregated) /\
  exists s',
    requestChoiceDecryption Toy.kA Toy.aggregated = Ok s' /\
    decryptionRequests Toy.aggregated !! counterRequest Toy.aggregated = None /\
    requestedHandles Toy.aggregated !! counterRequest Toy.aggregated = None /\
    decryptionRequests s'
    = <[counterRequest Toy.aggregated := choice_hash Toy.kA]>
        (decryptionRequests Toy.aggregated) /\
    requestedHandles s'
    = <[counterRequest Toy.aggregated :=
          [getEncryptedChoiceCount Toy.aggregated Toy.kA]]>
        (requestedHandles Toy.aggregated) /\
    counterRequest s' = counterRequest Toy.aggregated + 1 /\
    events s'
    = events Toy.aggregated
      ++ [DecryptionRequested (counterRequest Toy.aggregated)] /\
    encryptedChoiceCount s' = encryptedChoiceCount Toy.aggregated /\
    choiceList s' = choiceList Toy.aggregated.
Proof.
  split.
  - apply (@request_checks_registration Toy.toy toy_laws Toy.aggregated Toy.kB).
    vm_compute. discriminate.
  - apply (@request_checks_registration Toy.toy toy_laws Toy.aggregated Toy.kA).
    + exact reachable_aggregated.
    + vm_compute. reflexivity.
Defined.

Lemma callback_invalid_proof_witness :
  (exists r, decryptChoiceCount 0 Toy.clear1 [] Toy.requested = Revert r) /\
  step (DecryptChoiceCount 0 Toy.clear1 []) Toy.requested = Toy.requested /\
  decryptChoiceCount 0 Toy.clear1 [] Toy.requested = Revert InvalidSignatures /\
  is_ok (decryptChoiceCount 0 Toy.clear1 Toy.clear1
           (step (DecryptChoiceCount 0 Toy.clear1 []) Toy.requested)) = true.
Proof.
  destruct (@callback_invalid_proof_isolated Toy.toy toy_laws
              Toy.requested 0 Toy.clear1 [])
    as (H1 & H2 & H3); [vm_compute; reflexivity|].
  split; [exact H1|]. split; [exact H2|].
  destruct H3 as (H3 & _ & H4).
  - exact reachable_requested.
  - vm_compute. eauto.
  - split; [exact H3|]. apply H4. vm_compute. reflexivity.
Defined.

Lemma callback_request_never_retired_witness :
  (is_ok (decryptChoiceCount 0 Toy.clear1 Toy.clear1 Toy.requested) = true <->
   is_Some (decryptionRequests Toy.requested !! 0) /\
   FHE_checkSignatures Toy.requested 0 Toy.clear1 Toy.clear1 = Ok tt) /\
  (decryptionRequests Toy.requested !! 0 = None ->
   (exists r,
      decryptChoiceCount 0 Toy.clear1 Toy.clear1 Toy.requested = Revert r) /\
   ((forall k, k ∈ choiceList Toy.requested -> choice_hash k <> 0) ->
    decryptChoiceCount 0 Toy.clear1 Toy.clear1 Toy.requested
    = Revert (Error "Choice not found"))) /\
  (forall s',
     decryptChoiceCount 0 Toy.clear1 Toy.clear1 Toy.requested = Ok s' ->
     decryptionRequests s' = decryptionRequests Toy.requested /\
     exists e, s' = emit e Toy.requested /\
       decryptChoiceCount 0 Toy.clear1 Toy.clear1 s' = Ok (emit e s')).
Proof.
  apply (@callback_request_never_retired Toy.toy toy_laws Toy.requested 0
           Toy.clear1 Toy.clear1).
  exact reachable_requested.
Defined.

(** C2 as the spec states it fails: after a request for the one choice, a
    callback with the right cleartext and proof succeeds, the commitment
    stays stored, and the same callback succeeds a second time, so that the
    event is logged twice. *)
Lemma callback_fulfilled_twice :
  let s1 := step (DecryptChoiceCount 0 Toy.clear1 Toy.clear1) Toy.requested in
  let s2 := step (DecryptChoiceCount 0 Toy.clear1 Toy.clear1) s1 in
  is_ok (decryptChoiceCount 0 Toy.clear1 Toy.clear1 Toy.requested) = true /\
  is_Some (decryptionRequests s1 !! 0) /\
  is_ok (decryptChoiceCount 0 Toy.clear1 Toy.clear1 s1) = true /\
  events s2
  = [VoteSubmitted 7 1000; DecryptionRequested 0;
     VoteCountDecrypted Toy.kA 1; VoteCountDecrypted Toy.kA 1].
Proof.
  cbv zeta. split; [vm_compute; reflexivity|].
  split; [vm_compute; eauto|].
  split; vm_compute; reflexivity.
Qed.

(** The request is made when the tally is one; a second vote for the key
    and a second aggregation come before the callback and bring the tally
    to three; the callback still publishes one. *)
Lemma request_callback_round_trip_witness :
  tally Toy.aggregated Toy.kA = 1 /\
  tally (run Toy.later (step (RequestChoiceDecryption Toy.kA) Toy.aggregated))
    Toy.kA = 3 /\
  is_ok (requestChoiceDecryption Toy.kA Toy.aggregated) = true /\
  events (step (RequestChoiceDecryption Toy.kA) Toy.aggregated)
  = events Toy.aggregated ++ [DecryptionRequested (counterRequest Toy.aggregated)] /\
  decryptChoiceCount (counterRequest Toy.aggregated) Toy.clear1 Toy.clear1
    (run Toy.later (step (RequestChoiceDecryption Toy.kA) Toy.aggregated))
  = Ok (emit (VoteCountDecrypted Toy.kA (tally Toy.aggregated Toy.kA))
          (run Toy.later
             (step (RequestChoiceDecryption Toy.kA) Toy.aggregated))).
Proof.
  split; [vm_compute; reflexivity|]. split; [vm_compute; reflexivity|].
  apply (@request_callback_round_trip Toy.toy toy_laws Toy.aggregated Toy.kA
           Toy.later Toy.clear1 Toy.clear1).
  - exact reachable_aggregated.
  - vm_compute. reflexivity.
  - intros k Hk _. vm_compute in Hk.
    apply list_elem_of_singleton in Hk. rewrite Hk. vm_compute. reflexivity.
  - vm_compute. reflexivity.
Defined.

(** ** C3: conservation *)

Section Conservation.

Context {F : FHEVM} {L : FHEVMLaws F}.

Lemma submitted_keys_cons (c : call) (cs : list call) :
  submitted_keys (c :: cs) = submitted_keys [c] ++ submitted_keys cs.
Proof. unfold submitted_keys. cbn. now destruct c. Qed.

(** One call other than an aggregation: the ledger grows by the key of the
    vote, if the call is a submission, and the tallies stay at zero. *)
Lemma step_no_aggregate (c : call) (s : State) :
  is_aggregate c = false -> wf s ->
  voteCount s + Z.of_nat (length (submitted_keys [c])) <= MAX_UINT256 ->
  zero_tallies s ->
  ledger_keys (step c s) = ledger_keys s ++ submitted_keys [c] /\
  zero_tallies (step c s) /\
  voteCount (step c s)
  = voteCount s + Z.of_nat (length (submitted_keys [c])).
Proof.
  intros Hc W Hmax Hz.
  destruct c as [now voter choice| |choice|id ct pf]; [|discriminate| |].
  - cbn in Hmax. destruct (submit_ok now voter choice s) as [s' E]; [lia|].
    unfold step. cbn [execute]. rewrite E.
    pose proof (submit_ledger now voter choice s s' (proj1 (wf_count s W)) E)
      as Hl.
    apply submit_inv in E as (_ & Hvc & _ & _ & _ & _ & _ & Hreg).
    split; [exact Hl|]. split; [|cbn; lia].
    destruct Hreg as [(_ & Hcnt & _)|(_ & Hcnt & _)];
      intros k h; rewrite Hcnt; [apply Hz|].
    rewrite lookup_insert. destruct (decide _); [congruence|apply Hz].
  - unfold step. cbn [execute]. cbn [submitted_keys omap]. rewrite app_nil_r.
    destruct (requestChoiceDecryption choice s) as [s'|] eqn:E.
    + apply request_inv in E as (_ & Hvc & Hv & Hcnt & _).
      split; [now apply ledger_keys_frame|]. split; [|cbn; lia].
      intros k h. rewrite Hcnt. apply Hz.
    + split; [reflexivity|]. split; [exact Hz|cbn; lia].
  - unfold step. cbn [execute]. cbn [submitted_keys omap]. rewrite app_nil_r.
    destruct (decryptChoiceCount id ct pf s) as [s'|] eqn:E.
    + apply callback_inv in E as (k0 & n & _ & _ & _ & ->).
      split; [reflexivity|]. split; [exact Hz|cbn; lia].
    + split; [reflexivity|]. split; [exact Hz|cbn; lia].
Qed.

Lemma run_no_aggregate (cs : list call) (s : State) :
  Forall (fun c => is_aggregate c = false) cs -> wf s ->
  voteCount s + Z.of_nat (length (submitted_keys cs)) <= MAX_UINT256 ->
  zero_tallies s ->
  ledger_keys (run cs s) = ledger_keys s ++ submitted_keys cs /\
  zero_tallies (run cs s).
Proof.
  revert s. induction cs as [|c cs IH]; intros s Hcs W Hmax Hz.
  - cbn. now rewrite app_nil_r.
  - apply Forall_cons in Hcs as [Hc Hcs].
    rewrite (submitted_keys_cons c cs), length_app in Hmax.
    destruct (step_no_aggregate c s Hc W) as (Hl & Hz' & Hvc);
      [lia|exact Hz|].
    destruct (IH (step c s) Hcs (wf_step c s W)) as (Hl2 & Hz2);
      [lia|exact Hz'|].
    cbn [run fold_left]. fold (run cs (step c s)).
    split; [|exact Hz2].
    now rewrite Hl2, Hl, (submitted_keys_cons c cs), app_assoc.
Qed.

Lemma zero_tallies_tally (s : State) (k : string) :
  zero_tallies s -> tally s k = 0.
Proof.
  intros Hz. unfold tally, getEncryptedChoiceCount.
  destruct (encryptedChoiceCount s !! k) as [h|] eqn:E; cbn.
  - rewrite (Hz k h E), decrypt_asEuint32. reflexivity.
  - apply decrypt_uninitialized.
Qed.

(** Votes, then one aggregation: every tally is the number of votes of its
    key modulo [2^32]. *)
Lemma conservation_mod (cs : list call) (X : string) :
  Forall (fun c => is_aggregate c = false) cs ->
  Z.of_nat (length (submitted_keys cs)) <= MAX_UINT256 ->
  tally (step AggregateVotes (run cs init)) X
  = votes_for X (submitted_keys cs) mod UINT32_MOD.
Proof.
  intros Hcs Hmax.
  destruct (run_no_aggregate cs init Hcs wf_init) as (Hl & Hz).
  { cbn. lia. }
  { intros k h Hk. cbn in Hk. rewrite lookup_empty in Hk. discriminate. }
  cbn [ledger_keys] in Hl. change (ledger_keys init) with (@nil string) in Hl.
  cbn [app] in Hl.
  unfold tally. rewrite step_aggregate_count, Hl.
  assert (Ht : tally (run cs init) X = 0) by now apply zero_tallies_tally.
  unfold tally in Ht. rewrite decrypt_iter by (rewrite Ht; unfold UINT32_MOD; lia).
  now rewrite Ht.
Qed.

Lemma count_key_le (k : string) (l : list string) :
  (count_key k l <= length l)%nat.
Proof. unfold count_key. apply length_filter. Qed.

Lemma sum_indicator (a : string) (l : list string) :
  NoDup l -> a ∈ l ->
  foldr Z.add 0 ((fun k => if decide (a = k) then 1 else 0) <$> l) = 1.
Proof.
  induction 1 as [|x l Hx Hnd IH]; intros Ha; [inversion Ha|].
  cbn. destruct (decide (a = x)) as [->|Hne].
  - assert (E : foldr Z.add 0 ((fun k => if decide (x = k) then 1 else 0) <$> l) = 0).
    { clear IH Ha Hnd. induction l as [|y l IHl]; [reflexivity|]. cbn.
      apply not_elem_of_cons in Hx as [Hxy Hx].
      rewrite decide_False by assumption. now rewrite IHl. }
    rewrite E. reflexivity.
  - rewrite IH; [reflexivity|]. inversion Ha; subst; [congruence|assumption].
Qed.

(** Over a duplicate-free list that has every key of [l'], the numbers of
    occurrences add up to the length of [l']. *)
Lemma sum_count_keys (l l' : list string) :
  NoDup l -> (forall k, k ∈ l' -> k ∈ l) ->
  foldr Z.add 0 ((fun k => Z.of_nat (count_key k l')) <$> l)
  = Z.of_nat (length l').
Proof.
  intros Hnd. induction l' as [|a l' IH]; intros Hsub.
  - clear Hnd Hsub. induction l as [|x l IHl]; [reflexivity|].
    rewrite fmap_cons. cbn [foldr]. now rewrite IHl.
  - assert (E : forall m,
      foldr Z.add 0 ((fun k => Z.of_nat (count_key k (a :: l'))) <$> m)
      = foldr Z.add 0 ((fun k => if decide (a = k) then 1 else 0) <$> m)
        + foldr Z.add 0 ((fun k => Z.of_nat (count_key k l')) <$> m)).
    { induction m as [|x m IHm]; [reflexivity|].
      rewrite !fmap_cons. cbn [foldr].
      rewrite IHm, count_key_cons. destruct (decide (a = x)); lia. }
    rewrite E, IH, sum_indicator.
    + cbn [length]. lia.
    + exact Hnd.
    + apply Hsub. left.
    + intros k Hk. apply Hsub. now right.
Qed.

(** C3, as the code has it: after calls that submit votes and aggregate
    nothing, fewer than [2^32] votes in all, one call of [aggregateVotes]
    brings the tally of every key to the number of votes submitted with that
    key, and the tallies of the listed choices add up to the number of votes
    submitted, which is the vote count. *)
Theorem conservation_first_aggregate (cs : list call) (X : string) :
  Forall (fun c => is_aggregate c = false) cs ->
  Z.of_nat (length (submitted_keys cs)) < UINT32_MOD ->
  let s := step AggregateVotes (run cs init) in
  tally s X = votes_for X (submitted_keys cs) /\
  sum_tallies s = Z.of_nat (length (submitted_keys cs)) /\
  voteCount s = Z.of_nat (length (submitted_keys cs)).
Proof.
  intros Hcs Hlt s.
  assert (HM : UINT32_MOD <= MAX_UINT256) by (vm_compute; discriminate).
  assert (Hsmall : forall k,
    votes_for k (submitted_keys cs) mod UINT32_MOD
    = votes_for k (submitted_keys cs)).
  { intros k. apply Z.mod_small. unfold votes_for.
    pose proof (count_key_le k (submitted_keys cs)). lia. }
  destruct (run_no_aggregate cs init Hcs wf_init) as (Hl & Hz).
  { cbn. lia. }
  { intros k h Hk. cbn in Hk. rewrite lookup_empty in Hk. discriminate. }
  change (ledger_keys init) with (@nil string) in Hl. cbn [app] in Hl.
  pose proof (wf_run cs init wf_init) as W.
  destruct (step_aggregate_frame (run cs init)) as (Hvc & _ & Hlist & _).
  fold s in Hvc, Hlist.
  split; [|split].
  - unfold s. rewrite conservation_mod by (assumption || lia). apply Hsmall.
  - unfold sum_tallies. rewrite Hlist.
    rewrite <- (sum_count_keys (choiceList (run cs init)) (submitted_keys cs)).
    + f_equal. apply list_fmap_ext. intros i k _.
      unfold s. rewrite conservation_mod by (assumption || lia). apply Hsmall.
    + apply W.
    + intros k Hk. apply (wf_ledger _ W). now rewrite Hl.
  - rewrite Hvc. unfold ledger_keys in Hl.
    apply (f_equal length) in Hl. rewrite length_fmap, length_seqZ in Hl.
    pose proof (wf_count _ W). lia.
Qed.

(** [n] votes with one handle, then one aggregation: the tally is [n]
    modulo [2^32]. *)
Lemma conservation_replicate (n : nat) (now voter choice : Z) :
  Z.of_nat n <= MAX_UINT256 ->
  let cs := replicate n (SubmitEncryptedVote now voter choice) in
  let X := bytes32ToString (FHE_toBytes32 choice) in
  votes_for X (submitted_keys cs) = Z.of_nat n /\
  tally (step AggregateVotes (run cs init)) X = Z.of_nat n mod UINT32_MOD.
Proof.
  intros Hn cs X.
  assert (Hk : submitted_keys cs = replicate n X).
  { unfold cs. clear Hn. induction n as [|n IH]; [reflexivity|].
    cbn [replicate]. rewrite submitted_keys_cons, IH. reflexivity. }
  assert (Hc : votes_for X (submitted_keys cs) = Z.of_nat n).
  { rewrite Hk. unfold votes_for. f_equal. clear.
    induction n as [|n IH]; [reflexivity|].
    cbn [replicate]. rewrite count_key_cons, decide_True by reflexivity.
    now rewrite IH. }
  split; [exact Hc|]. rewrite conservation_mod.
  - now rewrite Hc.
  - apply Forall_replicate. reflexivity.
  - now rewrite Hk, length_replicate.
Qed.

End Conservation.

Lemma conservation_witness :
  let s := step AggregateVotes (run Toy.ballots init) in
  tally s Toy.kA = votes_for Toy.kA (submitted_keys Toy.ballots) /\
  sum_tallies s = Z.of_nat (length (submitted_keys Toy.ballots)) /\
  voteCount s = Z.of_nat (length (submitted_keys Toy.ballots)).
Proof.
  apply (@conservation_first_aggregate Toy.toy toy_laws Toy.ballots Toy.kA).
  - repeat constructor.
  - vm_compute. reflexivity.
Defined.

(** C3 as the spec states it fails twice over.  Two votes for a key with an
    aggregation between them, then the aggregation: the tally is three and
    the tallies add up to three, with two votes submitted.  And [2^32] votes
    for a key, then the only aggregation: the tally is zero. *)
Lemma conservation_fails :
  (let s := step AggregateVotes (run Toy.early_aggregate init) in
   votes_for Toy.kA (submitted_keys Toy.early_aggregate) = 2 /\
   voteCount s = 2 /\ tally s Toy.kA = 3 /\ sum_tallies s = 3) /\
  (let s := step AggregateVotes (run Toy.wrap_votes init) in
   votes_for Toy.kA (submitted_keys Toy.wrap_votes) = UINT32_MOD /\
   tally s Toy.kA = 0).
Proof.
  split.
  - cbv zeta. repeat split; vm_compute; reflexivity.
  - cbv zeta.
    assert (Hn : Z.of_nat (Z.to_nat UINT32_MOD) = UINT32_MOD)
      by (apply Z2Nat.id; discriminate).
    destruct (@conservation_replicate Toy.toy toy_laws
                (Z.to_nat UINT32_MOD) 1000 7 Toy.hA) as [H1 H2].
    { rewrite Hn. discriminate. }
    rewrite Hn in H1, H2. split; [exact H1|].
    rewrite Z.mod_same in H2 by discriminate. exact H2.
Qed.

(** * More of the contract *)

(** ** The helpers *)

(** The string made of a word has the word's 32 bytes, most significant
    first: it is 32 bytes long, the word can be read back from it, and so
    two words with one string are one word. *)
Theorem bytes32ToString_round_trip (b : Z) :
  length (String.list_byte_of_string (bytes32ToString b)) = 32%nat /\
  (0 <= b <= MAX_UINT256 ->
   be_word (String.list_byte_of_string (bytes32ToString b)) = b /\
   forall b', 0 <= b' <= MAX_UINT256 ->
              bytes32ToString b' = bytes32ToString b -> b' = b).
Proof.
  rewrite bytes32ToString_bytes. split; [apply length_be_bytes|].
  intros Hb. split.
  - rewrite be_word_be_bytes.
    assert (Hp : 256 ^ Z.of_nat 32 = MAX_UINT256 + 1)
      by (vm_compute; reflexivity).
    apply Z.mod_small. lia.
  - intros b' Hb' E. now apply bytes32ToString_inj.
Qed.

Lemma bytes32ToString_round_trip_witness :
  be_word (String.list_byte_of_string (bytes32ToString Toy.hA)) = Toy.hA /\
  forall b', 0 <= b' <= MAX_UINT256 ->
             bytes32ToString b' = bytes32ToString Toy.hA -> b' = Toy.hA.
Proof.
  apply (bytes32ToString_round_trip Toy.hA). vm_compute. split; discriminate.
Defined.

Section Helpers.

Context {F : FHEVM}.

Lemma find_choice_split (l : list string) (hash : Z) (k : string) :
  find_choice l hash = Ok k ->
  exists l1 l2, l = l1 ++ k :: l2 /\ choice_hash k = hash /\
    forall k', k' ∈ l1 -> choice_hash k' <> hash.
Proof.
  induction l as [|c l IH]; cbn; [discriminate|].
  destruct (Z.eqb_spec (choice_hash c) hash) as [E|E].
  - intros [= <-]. exists [], l. split; [reflexivity|]. split; [exact E|].
    intros k' Hk'. inversion Hk'.
  - intros H. destruct (IH H) as (l1 & l2 & -> & Hk & Hl1).
    exists (c :: l1), l2. split; [reflexivity|]. split; [exact Hk|].
    intros k' Hk'. apply elem_of_cons in Hk' as [->|Hk']; auto.
Qed.

Lemma find_choice_revert_none (l : list string) (hash : Z)
    (r : revert_reason) :
  find_choice l hash = Revert r ->
  forall k, k ∈ l -> choice_hash k <> hash.
Proof.
  induction l as [|c l IH]; cbn; intros H k Hk; [inversion Hk|].
  destruct (Z.eqb_spec (choice_hash c) hash) as [E|E]; [discriminate|].
  apply elem_of_cons in Hk as [->|Hk]; [exact E|now apply IH].
Qed.

(** [getChoiceFromHash] gives the first choice of the list that has the
    hash, whatever comes after it; it reverts, with "Choice not found",
    exactly when no choice of the list has the hash, as on an empty list. *)
Theorem getChoiceFromHash_first_match (s : State) (hash : Z) :
  match getChoiceFromHash s hash with
  | Ok k =>
      exists l1 l2, choiceList s = l1 ++ k :: l2 /\ choice_hash k = hash /\
        forall k', k' ∈ l1 -> choice_hash k' <> hash
  | Revert r =>
      r = Error "Choice not found" /\
      forall k, k ∈ choiceList s -> choice_hash k <> hash
  end.
Proof.
  unfold getChoiceFromHash.
  destruct (find_choice (choiceList s) hash) as [k|r] eqn:E.
  - now apply find_choice_split.
  - split; [now apply find_choice_revert in E|].
    exact (find_choice_revert_none _ _ _ E).
Qed.

(** A call other than an aggregation leaves every tally handle as it is,
    but for a vote whose key has no tally yet: that key gets an encrypted
    zero. *)
Theorem tallies_move_only_by_aggregation (c : call) (s : State)
    (k : string) :
  is_aggregate c = false ->
  getEncryptedChoiceCount (step c s) k = getEncryptedChoiceCount s k \/
  (getEncryptedChoiceCount s k = 0 /\
   getEncryptedChoiceCount (step c s) k = FHE_asEuint32 0 /\
   exists now voter choice,
     c = SubmitEncryptedVote now voter choice /\
     k = bytes32ToString (FHE_toBytes32 choice)).
Proof.
  intros Hc. destruct c as [now voter choice| |choice|id ct pf];
    [|discriminate| |]; unfold step; cbn [execute].
  - destruct (submitEncryptedVote now voter choice s) as [s'|] eqn:E;
      [|now left].
    apply submit_inv in E as (_ & _ & _ & _ & _ & _ & _ & Hreg).
    destruct Hreg as [(_ & Hcnt & _)|(Hk0 & Hcnt & _)].
    + left. now apply count_frame.
    + rewrite (count_insert s s' _ k _ Hcnt).
      destruct (decide (bytes32ToString (FHE_toBytes32 choice) = k))
        as [<-|Hne]; [|now left].
      right. split; [exact Hk0|]. split; [reflexivity|]. eauto.
  - destruct (requestChoiceDecryption choice s) as [s'|] eqn:E; [|now left].
    apply request_inv in E as (_ & _ & _ & Hcnt & _).
    left. now apply count_frame.
  - destruct (decryptChoiceCount id ct pf s) as [s'|] eqn:E; [|now left].
    apply callback_inv in E as (k0 & n & _ & _ & _ & ->). now left.
Qed.

Context {L : FHEVMLaws F}.

(** One call of [aggregateVotes]: it succeeds, changes nothing but tally
    handles and emits no event; the handle of a key is the old one with an
    encrypted one added once for each ledger entry of the key, so the tally
    of a key the ledger has grows by the number of its entries, modulo
    [2^32], and the handle of a key the ledger has not is left alone. *)
Theorem aggregateVotes_effect (s : State) (k : string) :
  exists s',
    aggregateVotes s = Ok s' /\
    same_but_counts s s' /\
    getEncryptedChoiceCount s' k
    = Nat.iter (count_key k (ledger_keys s)) fold_vote
        (getEncryptedChoiceCount s k) /\
    (k ∉ ledger_keys s ->
     getEncryptedChoiceCount s' k = getEncryptedChoiceCount s k) /\
    (k ∈ ledger_keys s ->
     registered s' k /\
     tally s' k
     = (tally s k + votes_for k (ledger_keys s)) mod UINT32_MOD).
Proof.
  exists (step AggregateVotes s). split; [reflexivity|].
  split; [apply step_aggregate_frame|].
  split; [apply step_aggregate_count|]. split.
  - intros Hk. rewrite step_aggregate_count, count_key_zero by assumption.
    reflexivity.
  - intros Hk. apply count_key_elem in Hk. split.
    + apply registered_iff. rewrite step_aggregate_count.
      destruct (count_key k (ledger_keys s)); [lia|].
      rewrite Nat.iter_succ. apply add_initialized.
    + unfold tally. rewrite step_aggregate_count.
      now apply decrypt_iter_pos.
Qed.

(** [m] calls of [aggregateVotes] in a row fold every ledger entry [m]
    times: in a reachable state the tally of a key grows by [m] times the
    number of entries of the key, modulo [2^32]. *)
Theorem aggregate_repeated (s : State) (m : nat) (k : string) :
  reachable s ->
  let s' := Nat.iter m (step AggregateVotes) s in
  reachable s' /\
  ledger_keys s' = ledger_keys s /\
  tally s' k
  = (tally s k + Z.of_nat m * votes_for k (ledger_keys s)) mod UINT32_MOD.
Proof.
  intros R. cbv zeta. induction m as [|m IH].
  - split; [exact R|]. split; [reflexivity|]. cbn [Nat.iter].
    rewrite Z.mul_0_l, Z.add_0_r. symmetry.
    apply Z.mod_small, (wf_range s (reachable_wf s R)).
  - destruct IH as (R' & Hl & Ht). rewrite !Nat.iter_succ.
    set (s1 := Nat.iter m (step AggregateVotes) s) in *.
    split; [now constructor|].
    destruct (step_aggregate_frame s1) as (Hvc & Hv & _).
    split; [rewrite <- Hl; now apply ledger_keys_frame|].
    unfold tally at 1. rewrite step_aggregate_count, Hl.
    rewrite decrypt_iter by apply (wf_range s1 (reachable_wf s1 R')).
    fold (tally s1 k). rewrite Ht.
    rewrite Z.add_mod_idemp_l by (unfold UINT32_MOD; lia).
    f_equal. unfold votes_for. lia.
Qed.

End Helpers.

Lemma tallies_move_only_by_aggregation_witness :
  getEncryptedChoiceCount
    (step (SubmitEncryptedVote 1001 8 Toy.hB) Toy.one_vote) Toy.kB
  = getEncryptedChoiceCount Toy.one_vote Toy.kB \/
  (getEncryptedChoiceCount Toy.one_vote Toy.kB = 0 /\
   getEncryptedChoiceCount
     (step (SubmitEncryptedVote 1001 8 Toy.hB) Toy.one_vote) Toy.kB
   = FHE_asEuint32 0 /\
   exists now voter choice,
     SubmitEncryptedVote 1001 8 Toy.hB = SubmitEncryptedVote now voter choice /\
     Toy.kB = bytes32ToString (FHE_toBytes32 choice)).
Proof.
  apply (@tallies_move_only_by_aggregation Toy.toy
           (SubmitEncryptedVote 1001 8 Toy.hB) Toy.one_vote Toy.kB).
  reflexivity.
Defined.

Lemma aggregateVotes_effect_witness :
  exists s',
    aggregateVotes Toy.one_vote = Ok s' /\
    same_but_counts Toy.one_vote s' /\
    getEncryptedChoiceCount s' Toy.kA
    = Nat.iter (count_key Toy.kA (ledger_keys Toy.one_vote)) fold_vote
        (getEncryptedChoiceCount Toy.one_vote Toy.kA) /\
    (Toy.kA ∉ ledger_keys Toy.one_vote ->
     getEncryptedChoiceCount s' Toy.kA
     = getEncryptedChoiceCount Toy.one_vote Toy.kA) /\
    (Toy.kA ∈ ledger_keys Toy.one_vote ->
     registered s' Toy.kA /\
     tally s' Toy.kA
     = (tally Toy.one_vote Toy.kA
        + votes_for Toy.kA (ledger_keys Toy.one_vote)) mod UINT32_MOD).
Proof.
  exact (@aggregateVotes_effect Toy.toy toy_laws Toy.one_vote Toy.kA).
Defined.

Lemma aggregate_repeated_witness :
  let s' := Nat.iter 3 (step AggregateVotes) Toy.one_vote in
  reachable s' /\
  ledger_keys s' = ledger_keys Toy.one_vote /\
  tally s' Toy.kA
  = (tally Toy.one_vote Toy.kA
     + Z.of_nat 3 * votes_for Toy.kA (ledger_keys Toy.one_vote))
    mod UINT32_MOD.
Proof.
  apply (@aggregate_repeated Toy.toy toy_laws Toy.one_vote 3 Toy.kA).
  exact reachable_one_vote.
Defined.

(** ** The ledger, the choice list and the event log *)

Section Ledger.

Context {F : FHEVM} {L : FHEVMLaws F}.

(** What a call does to the ledger: nothing, or, for a submission that
    goes through, one new entry under the next id. *)
Lemma step_votes (c : call) (s : State) :
  (voteCount (step c s) = voteCount s /\
   encryptedVotes (step c s) = encryptedVotes s /\
   (forall now voter choice,
      c = SubmitEncryptedVote now voter choice -> step c s = s)) \/
  (exists now voter choice,
     c = SubmitEncryptedVote now voter choice /\
     voteCount (step c s) = voteCount s + 1 /\
     encryptedVotes (step c s)
     = <[voteCount s + 1 :=
           {| voterId := voter; encryptedChoice := choice;
              timestamp := now |}]> (encryptedVotes s) /\
     events (step c s) = events s ++ [VoteSubmitted voter now]).
Proof.
  destruct c as [now voter choice| |choice|id ct pf].
  - unfold step. cbn [execute].
    destruct (submitEncryptedVote now voter choice s) as [s'|] eqn:E.
    + right. exists now, voter, choice.
      apply submit_inv in E as (_ & H1 & H2 & _ & _ & _ & H3 & _). auto.
    + left. auto.
  - left. destruct (step_aggregate_frame s) as (H1 & H2 & _).
    repeat split; [exact H1|exact H2|discriminate].
  - left. unfold step. cbn [execute].
    destruct (requestChoiceDecryption choice s) as [s'|] eqn:E.
    + apply request_inv in E as (_ & H1 & H2 & _).
      repeat split; [exact H1|exact H2|discriminate].
    + repeat split; discriminate.
  - left. unfold step. cbn [execute].
    destruct (decryptChoiceCount id ct pf s) as [s'|] eqn:E.
    + apply callback_inv in E as (k & n & _ & _ & _ & ->).
      repeat split; discriminate.
    + repeat split; discriminate.
Qed.

Lemma ledger_dom (s : State) :
  reachable s ->
  forall i, is_Some (encryptedVotes s !! i) <-> 1 <= i <= voteCount s.
Proof.
  induction 1 as [|c s R IH]; intros i.
  - cbn. rewrite lookup_empty. split; [intros [x Hx]; discriminate|lia].
  - pose proof (wf_count s (reachable_wf s R)) as Hc.
    destruct (step_votes c s) as [(H1 & H2 & _)|(now & voter & choice & _ & H1 & H2 & _)];
      rewrite H1, H2.
    + apply IH.
    + rewrite lookup_insert. destruct (decide (voteCount s + 1 = i)) as [<-|Hne].
      * split; [lia|eauto].
      * rewrite IH. lia.
Qed.

Lemma step_keeps_vote (c : call) (s : State) (i : Z) (v : EncryptedVote) :
  reachable s -> encryptedVotes s !! i = Some v ->
  encryptedVotes (step c s) !! i = Some v /\
  voteCount s <= voteCount (step c s).
Proof.
  intros R Hv.
  assert (Hi : 1 <= i <= voteCount s)
    by (apply (ledger_dom s R); now rewrite Hv).
  destruct (step_votes c s) as [(H1 & H2 & _)|(now & voter & choice & _ & H1 & H2 & _)];
    rewrite H1, H2.
  - split; [exact Hv|lia].
  - rewrite lookup_insert_ne by lia. split; [exact Hv|lia].
Qed.

(** The ledger is append-only: in a reachable state its entries are those
    of the ids [1 .. voteCount], and whatever calls follow, an entry stays
    what it is and the vote count does not go down. *)
Theorem ledger_append_only (s : State) :
  reachable s ->
  (forall i, is_Some (encryptedVotes s !! i) <-> 1 <= i <= voteCount s) /\
  forall cs i v,
    encryptedVotes s !! i = Some v ->
    encryptedVotes (run cs s) !! i = Some v /\
    voteCount s <= voteCount (run cs s).
Proof.
  intros R. split; [now apply ledger_dom|].
  intros cs. revert s R. induction cs as [|c cs IH]; intros s R i v Hv.
  - cbn. split; [exact Hv|lia].
  - cbn [run fold_left]. fold (run cs (step c s)).
    destruct (step_keeps_vote c s i v R Hv) as [Hv' Hle].
    destruct (IH (step c s) (reachable_step c s R) i v Hv') as [H1 H2].
    split; [exact H1|lia].
Qed.

Lemma distinct_keys_snoc (l : list string) (k : string) :
  distinct_keys (l ++ [k])
  = if decide (k ∈ distinct_keys l) then distinct_keys l
    else distinct_keys l ++ [k].
Proof. unfold distinct_keys. now rewrite foldl_snoc. Qed.

Lemma length_distinct_keys (l : list string) :
  (length (distinct_keys l) <= length l)%nat.
Proof.
  induction l as [|k l IH] using rev_ind; [reflexivity|].
  rewrite distinct_keys_snoc, length_app. cbn [length].
  destruct (decide (k ∈ distinct_keys l)); [lia|].
  rewrite length_app. cbn [length]. lia.
Qed.

(** [getChoiceList] gives the distinct keys of the ledger in the order in
    which they were first voted for; so there are never more choices than
    votes. *)
Theorem choice_list_is_distinct_ledger_keys (s : State) :
  reachable s ->
  getChoiceList s = distinct_keys (ledger_keys s) /\
  Z.of_nat (length (getChoiceList s)) <= voteCount s.
Proof.
  unfold getChoiceList. intros R.
  assert (E : choiceList s = distinct_keys (ledger_keys s)).
  { induction R as [|c s R IH]; [reflexivity|].
    pose proof (reachable_wf s R) as W.
    destruct c as [now voter choice| |choice|id ct pf].
    - unfold step. cbn [execute].
      destruct (submitEncryptedVote now voter choice s) as [s'|] eqn:Es;
        [|exact IH].
      rewrite (submit_ledger now voter choice s s' (proj1 (wf_count s W)) Es).
      rewrite distinct_keys_snoc, <- IH.
      apply submit_inv in Es as (_ & _ & _ & _ & _ & _ & _ & Hreg).
      destruct Hreg as [(Hk & _ & ->)|(Hk & _ & ->)].
      + rewrite decide_True; [reflexivity|]. now apply (wf_listed s W).
      + rewrite decide_False; [reflexivity|].
        intros Hin. now apply (wf_listed s W) in Hin.
    - destruct (step_aggregate_frame s) as (H1 & H2 & H3 & _).
      now rewrite H3, (ledger_keys_frame s _ H1 H2).
    - unfold step. cbn [execute].
      destruct (requestChoiceDecryption choice s) as [s'|] eqn:Es;
        [|exact IH].
      apply request_inv in Es as (_ & H1 & H2 & _ & H3 & _).
      now rewrite H3, (ledger_keys_frame s _ H1 H2).
    - unfold step. cbn [execute].
      destruct (decryptChoiceCount id ct pf s) as [s'|] eqn:Es; [|exact IH].
      apply callback_inv in Es as (k & n & _ & _ & _ & ->). exact IH. }
  split; [exact E|]. rewrite E.
  pose proof (length_distinct_keys (ledger_keys s)) as Hle.
  unfold ledger_keys in Hle at 2. rewrite length_fmap, length_seqZ in Hle.
  pose proof (wf_count s (reachable_wf s R)). lia.
Qed.

Lemma count_events_snoc (p : event -> bool) (es : list event) (e : event) :
  count_events p (es ++ [e])
  = (count_events p es + if p e then 1 else 0)%nat.
Proof.
  unfold count_events. rewrite filter_app, length_app. f_equal.
  rewrite filter_cons, filter_nil. destruct (p e); reflexivity.
Qed.

Lemma wf_counter_unused (s : State) :
  wf s -> decryptionRequests s !! counterRequest s = None.
Proof.
  intros W. destruct (decryptionRequests s !! counterRequest s) eqn:E;
    [|reflexivity].
  assert (0 <= counterRequest s < counterRequest s)
    by (apply wf_pending_fresh; [exact W|now rewrite E]).
  lia.
Qed.

(** The event log counts what happened: in a reachable state the vote
    count is the number of [VoteSubmitted] events, and the number of stored
    commitments, which is the request counter, is the number of
    [DecryptionRequested] events. *)
Theorem event_log_counts (s : State) :
  reachable s ->
  voteCount s = Z.of_nat (count_events is_VoteSubmitted (events s)) /\
  size (decryptionRequests s)
  = count_events is_DecryptionRequested (events s) /\
  counterRequest s
  = Z.of_nat (count_events is_DecryptionRequested (events s)).
Proof.
  induction 1 as [|c s R (IH1 & IH2 & IH3)]; [repeat split|].
  pose proof (reachable_wf s R) as W.
  destruct c as [now voter choice| |choice|id ct pf].
  - unfold step. cbn [execute].
    destruct (submitEncryptedVote now voter choice s) as [s'|] eqn:Es;
      [|auto].
    apply submit_inv in Es as (_ & -> & _ & -> & -> & _ & -> & _).
    rewrite !count_events_snoc. cbn [is_VoteSubmitted is_DecryptionRequested].
    rewrite Nat.add_0_r. repeat split; try assumption. lia.
  - destruct (step_aggregate_frame s) as (-> & _ & _ & -> & -> & _ & ->).
    auto.
  - unfold step. cbn [execute].
    destruct (requestChoiceDecryption choice s) as [s'|] eqn:Es; [|auto].
    apply request_inv in Es as (_ & -> & _ & _ & _ & -> & -> & _ & ->).
    rewrite !count_events_snoc. cbn [is_VoteSubmitted is_DecryptionRequested].
    rewrite Nat.add_0_r.
    rewrite map_size_insert_None by now apply wf_counter_unused.
    repeat split; try assumption; lia.
  - unfold step. cbn [execute].
    destruct (decryptChoiceCount id ct pf s) as [s'|] eqn:Es; [|auto].
    apply callback_inv in Es as (k & n & _ & _ & _ & ->).
    cbn [voteCount decryptionRequests counterRequest events emit].
    rewrite !count_events_snoc. cbn [is_VoteSubmitted is_DecryptionRequested].
    rewrite !Nat.add_0_r. auto.
Qed.

Lemma be_word_nonneg (bs : list byte) : 0 <= be_word bs.
Proof.
  induction bs as [|b bs IH] using rev_ind; [reflexivity|].
  rewrite be_word_snoc. unfold Z_of_byte. lia.
Qed.

Lemma abi_decode_range (data : list byte) (v : Z) :
  abi_decode_uint32 data = Some v ->
  0 <= v < UINT32_MOD /\ (32 <= length data)%nat.
Proof.
  unfold abi_decode_uint32.
  destruct (Nat.ltb_spec (length data) 32); [discriminate|].
  destruct (Z.ltb_spec (be_word (take 32 data)) UINT32_MOD); [|discriminate].
  intros [= <-]. pose proof (be_word_nonneg (take 32 data)). lia.
Qed.

Lemma event_ok_step (c : call) (s : State) (e : event) :
  reachable s -> event_ok s e -> event_ok (step c s) e.
Proof.
  intros R. pose proof (reachable_wf s R) as W.
  destruct e as [voter time|id|k n]; cbn [event_ok].
  - intros (i & Hi & Hv & Ht).
    destruct (proj2 (ledger_dom s R i) Hi) as [v Ev].
    destruct (step_keeps_vote c s i v R Ev) as [Ev' Hle].
    exists i. unfold vote_at in *. rewrite Ev'. rewrite Ev in Hv, Ht.
    split; [lia|auto].
  - intros [x Hx]. exists x. now apply step_keeps_request.
  - intros [Hk Hn]. split; [|exact Hn].
    destruct (step_prefix c s) as [l ->]. apply elem_of_app. now left.
Qed.

(** Every event of the log of a reachable state is backed by the storage:
    a [VoteSubmitted] by a ledger entry with its voter and time, a
    [DecryptionRequested] by a commitment stored under its id, and a
    [VoteCountDecrypted] names a listed choice and a count below [2^32]. *)
Theorem event_log_backed (s : State) (e : event) :
  reachable s -> e ∈ events s -> event_ok s e.
Proof.
  intros R. revert e. induction R as [|c s R IH]; intros e He.
  { inversion He. }
  pose proof (reachable_wf s R) as W.
  assert (Hold : e ∈ events s -> event_ok (step c s) e).
  { intros H. apply event_ok_step; auto. }
  destruct c as [now voter choice| |choice|id ct pf].
  - revert He Hold. unfold step. cbn [execute].
    destruct (submitEncryptedVote now voter choice s) as [s'|] eqn:Es;
      [|auto].
    intros He Hold.
    apply submit_inv in Es as (_ & Hvc & Hv & _ & _ & _ & Hev & _).
    rewrite Hev in He. apply elem_of_app in He as [He|He]; [auto|].
    apply list_elem_of_singleton in He as ->. cbn [event_ok].
    exists (voteCount s + 1). unfold vote_at.
    rewrite Hvc, Hv, lookup_insert_eq. cbn.
    pose proof (wf_count s W). repeat split; lia.
  - destruct (step_aggregate_frame s) as (_ & _ & _ & _ & _ & _ & Hev).
    rewrite Hev in He. auto.
  - revert He Hold. unfold step. cbn [execute].
    destruct (requestChoiceDecryption choice s) as [s'|] eqn:Es; [|auto].
    intros He Hold.
    apply request_inv in Es as (_ & _ & _ & _ & _ & Hreq & _ & _ & Hev).
    rewrite Hev in He. apply elem_of_app in He as [He|He]; [auto|].
    apply list_elem_of_singleton in He as ->. cbn [event_ok].
    rewrite Hreq, lookup_insert_eq. eauto.
  - revert He Hold. unfold step. cbn [execute].
    destruct (decryptChoiceCount id ct pf s) as [s'|] eqn:Es; [|auto].
    intros He Hold.
    apply callback_inv in Es as (k & n & Hk & _ & Hn & ->).
    cbn [events emit] in He. apply elem_of_app in He as [He|He]; [auto|].
    apply list_elem_of_singleton in He as ->. cbn [event_ok emit choiceList].
    split; [now apply find_choice_inv in Hk|].
    now apply abi_decode_range in Hn.
Qed.

(** A stored commitment is never removed and never overwritten: whatever
    calls follow, the id keeps its commitment, which is the hash of a
    listed choice, and the handle submitted with it. *)
Theorem commitments_persist (s : State) (id c : Z) (cs : list call) :
  reachable s -> decryptionRequests s !! id = Some c ->
  decryptionRequests (run cs s) !! id = Some c /\
  requestedHandles (run cs s) !! id = requestedHandles s !! id /\
  0 <= id < counterRequest s /\
  exists k, k ∈ choiceList s /\ k ∈ choiceList (run cs s) /\
            c = choice_hash k.
Proof.
  intros R Hc. pose proof (reachable_wf s R) as W.
  destruct (wf_request s W id c Hc) as (k & h & -> & Hk & Hh & _).
  split; [now apply run_keeps_request|].
  split; [rewrite Hh; now apply run_keeps_handles|].
  split; [apply wf_pending_fresh; [exact W|now rewrite Hc]|].
  exists k. split; [exact Hk|]. split; [|reflexivity].
  destruct (run_prefix cs s) as [l ->]. apply elem_of_app. now left.
Qed.

End Ledger.

Lemma ledger_append_only_witness :
  encryptedVotes (run Toy.later Toy.one_vote) !! 1
  = Some {| voterId := 7; encryptedChoice := Toy.hA; timestamp := 1000 |} /\
  voteCount Toy.one_vote <= voteCount (run Toy.later Toy.one_vote).
Proof.
  destruct (@ledger_append_only Toy.toy toy_laws Toy.one_vote
              reachable_one_vote) as [_ H].
  apply H. vm_compute. reflexivity.
Defined.

Lemma choice_list_is_distinct_ledger_keys_witness :
  getChoiceList (run Toy.ballots init)
  = distinct_keys (ledger_keys (run Toy.ballots init)) /\
  Z.of_nat (length (getChoiceList (run Toy.ballots init)))
  <= voteCount (run Toy.ballots init).
Proof.
  apply (@choice_list_is_distinct_ledger_keys Toy.toy toy_laws).
  apply (@reachable_run Toy.toy), reachable_init.
Defined.

Lemma event_log_counts_witness :
  voteCount Toy.requested
  = Z.of_nat (count_events is_VoteSubmitted (events Toy.requested)) /\
  size (decryptionRequests Toy.requested)
  = count_events is_DecryptionRequested (events Toy.requested) /\
  counterRequest Toy.requested
  = Z.of_nat (count_events is_DecryptionRequested (events Toy.requested)).
Proof.
  apply (@event_log_counts Toy.toy toy_laws Toy.requested).
  exact reachable_requested.
Defined.

Lemma event_log_backed_witness :
  event_ok Toy.requested (DecryptionRequested 0).
Proof.
  apply (@event_log_backed Toy.toy toy_laws Toy.requested).
  - exact reachable_requested.
  - vm_compute. right. left.
Defined.

Lemma commitments_persist_witness :
  decryptionRequests (run Toy.later Toy.requested) !! 0
  = Some (choice_hash Toy.kA) /\
  requestedHandles (run Toy.later Toy.requested) !! 0
  = requestedHandles Toy.requested !! 0 /\
  0 <= 0 < counterRequest Toy.requested /\
  exists k, k ∈ choiceList Toy.requested /\
            k ∈ choiceList (run Toy.later Toy.requested) /\
            choice_hash Toy.kA = choice_hash k.
Proof.
  apply (@commitments_persist Toy.toy toy_laws Toy.requested 0
           (choice_hash Toy.kA) Toy.later).
  - exact reachable_requested.
  - vm_compute. reflexivity.
Defined.

(** * The poll form of the web client *)

Section PollFormProperties.

Import PollForm.

Lemma splice_one_inside {A : Type} (i : nat) (l : list A) :
  (i < length l)%nat -> splice (Z.of_nat i) 1 l = delete i l.
Proof.
  intros Hi. unfold splice.
  destruct (Z.ltb_spec (Z.of_nat i) 0) as [H|_]; [lia|].
  rewrite delete_take_drop. f_equal; f_equal; lia.
Qed.

Lemma splice_one_from_end {A : Type} (i : Z) (l : list A) :
  - Z.of_nat (length l) <= i < 0 ->
  splice i 1 l = delete (Z.to_nat (Z.of_nat (length l) + i)) l.
Proof.
  intros Hi. unfold splice.
  destruct (Z.ltb_spec i 0) as [_|H]; [|lia].
  rewrite delete_take_drop. f_equal; f_equal; lia.
Qed.

Lemma splice_one_past_end {A : Type} (i : Z) (l : list A) :
  Z.of_nat (length l) <= i -> splice i 1 l = l.
Proof.
  intros Hi. unfold splice.
  destruct (Z.ltb_spec i 0) as [H|_]; [lia|].
  replace (Z.to_nat (Z.min i (Z.of_nat (length l)))) with (length l) by lia.
  replace (Z.to_nat _) with (length l) by lia.
  now rewrite firstn_all, drop_all, app_nil_r.
Qed.

Lemma splice_one_before_start {A : Type} (i : Z) (l : list A) :
  i < - Z.of_nat (length l) -> splice i 1 l = delete 0%nat l.
Proof.
  intros Hi. unfold splice.
  destruct (Z.ltb_spec i 0) as [_|H]; [|lia].
  replace (Z.to_nat (Z.max (Z.of_nat (length l) + i) 0)) with 0%nat by lia.
  destruct l as [|x l]; [now rewrite drop_nil|].
  replace (Z.to_nat _) with 1%nat by (cbn [length] in *; lia).
  reflexivity.
Qed.

Lemma length_splice_one {A : Type} (i : Z) (l : list A) :
  (length l - 1 <= length (splice i 1 l) <= length l)%nat.
Proof.
  unfold splice. rewrite length_app, length_take, length_drop.
  destruct (Z.ltb_spec i 0); lia.
Qed.

(** [removeOption] gives up when the form has two options or fewer;
    otherwise it removes exactly the option at the index and keeps the
    others in order, counting a negative index from the end, removing
    nothing for an index past the end and the first option for an index
    before the start.  Title and description are kept. *)
Theorem removeOption_effect (index : Z) (d : NewPollData) :
  title (removeOption index d) = title d /\
  description (removeOption index d) = description d /\
  ((length (options d) <= 2)%nat -> removeOption index d = d) /\
  ((2 < length (options d))%nat ->
   let len := Z.of_nat (length (options d)) in
   (0 <= index < len ->
    options (removeOption index d) = delete (Z.to_nat index) (options d)) /\
   (- len <= index < 0 ->
    options (removeOption index d)
    = delete (Z.to_nat (len + index)) (options d)) /\
   (len <= index -> options (removeOption index d) = options d) /\
   (index < - len ->
    options (removeOption index d) = delete 0%nat (options d))).
Proof.
  unfold removeOption.
  destruct (Nat.leb_spec (length (options d)) 2) as [Hle|Hgt].
  - split; [reflexivity|]. split; [reflexivity|]. split; [reflexivity|].
    intros H. lia.
  - split; [reflexivity|]. split; [reflexivity|]. split; [lia|].
    intros _. cbn [options with_options]. split; [|split; [|split]].
    + intros Hi. rewrite <- (Z2Nat.id index) at 1 by lia.
      apply splice_one_inside. lia.
    + intros Hi. now apply splice_one_from_end.
    + intros Hi. now apply splice_one_past_end.
    + intros Hi. now apply splice_one_before_start.
Qed.

Lemma assign_no_index {A : Type} (index : Z) (value : A)
    (l : list (option A)) :
  index < 0 \/ MAX_ARRAY_INDEX < index -> assign index value l = l.
Proof.
  intros Hi. unfold assign.
  destruct (Z.ltb_spec index 0); [reflexivity|].
  destruct (Z.ltb_spec MAX_ARRAY_INDEX index); [reflexivity|lia].
Qed.

Lemma assign_index {A : Type} (index : Z) (value : A)
    (l : list (option A)) :
  0 <= index <= MAX_ARRAY_INDEX ->
  let i := Z.to_nat index in
  assign index value l !! i = Some (Some value) /\
  length (assign index value l) = Nat.max (length l) (S i) /\
  (forall j, (j < length l)%nat -> j <> i ->
             assign index value l !! j = l !! j) /\
  (forall j, (length l <= j < i)%nat ->
             assign index value l !! j = Some None).
Proof.
  intros Hi. cbv zeta. set (i := Z.to_nat index). unfold assign.
  destruct (Z.ltb_spec index 0) as [H|_]; [lia|].
  destruct (Z.ltb_spec MAX_ARRAY_INDEX index) as [H|_]; [lia|].
  destruct (Z.ltb_spec index (Z.of_nat (length l))) as [Hin|Hout].
  - assert (Hl : (i < length l)%nat) by (unfold i; lia).
    split; [now apply list_lookup_insert_eq|].
    split; [rewrite length_insert; lia|]. split.
    + intros j _ Hj. now apply list_lookup_insert_ne.
    + intros j Hj. lia.
  - set (n := Z.to_nat (index - Z.of_nat (length l))).
    assert (Hi' : i = (length l + n)%nat) by (unfold i, n; lia).
    split; [|split; [|split]].
    + rewrite lookup_app_r by lia.
      rewrite lookup_app_r by (rewrite length_replicate; lia).
      rewrite length_replicate.
      replace (i - length l - n)%nat with 0%nat by lia.
      reflexivity.
    + rewrite !length_app, length_replicate. cbn [length]. lia.
    + intros j Hj _. now rewrite lookup_app_l by lia.
    + intros j Hj. rewrite lookup_app_r by lia.
      rewrite lookup_app_l by (rewrite length_replicate; lia).
      apply lookup_replicate_2. lia.
Qed.

Lemma length_assign {A : Type} (index : Z) (value : A)
    (l : list (option A)) :
  (length l <= length (assign index value l))%nat.
Proof.
  destruct (Z.ltb_spec index 0) as [Hneg|Hpos].
  - rewrite assign_no_index by auto. lia.
  - destruct (Z.ltb_spec MAX_ARRAY_INDEX index) as [Hbig|Hidx].
    + rewrite assign_no_index by auto. lia.
    + destruct (assign_index index value l) as (_ & H & _); [lia|].
      cbv zeta in H. lia.
Qed.

(** [updateOption] keeps title and description.  With an array index,
    which is an integer from zero to [2^32 - 2], it replaces that option and
    no other when the index is inside the array, and when it is past the
    end it makes the array longer, up to the index, with holes between the
    old end and the index.  With a negative index or one above
    [2^32 - 2] it changes no option and no length. *)
Theorem updateOption_effect (index : Z) (value : string) (d : NewPollData) :
  title (updateOption index value d) = title d /\
  description (updateOption index value d) = description d /\
  (index < 0 \/ MAX_ARRAY_INDEX < index ->
   options (updateOption index value d) = options d) /\
  (0 <= index <= MAX_ARRAY_INDEX ->
   let i := Z.to_nat index in
   let o' := options (updateOption index value d) in
   o' !! i = Some (Some value) /\
   length o' = Nat.max (length (options d)) (S i) /\
   (forall j, (j < length (options d))%nat -> j <> i ->
              o' !! j = options d !! j) /\
   (forall j, (length (options d) <= j < i)%nat -> o' !! j = Some None)).
Proof.
  unfold updateOption. cbn [title description options with_options].
  split; [reflexivity|]. split; [reflexivity|]. split.
  - apply assign_no_index.
  - apply assign_index.
Qed.

(** Adding an option and removing the last one gives back the form, when
    it had two options at least. *)
Theorem addOption_removeOption (d : NewPollData) :
  (2 <= length (options d))%nat ->
  removeOption (Z.of_nat (length (options d))) (addOption d) = d.
Proof.
  intros Hl. unfold removeOption, addOption.
  cbn [options with_options title description]. rewrite length_app.
  cbn [length].
  destruct (Nat.leb_spec (length (options d) + 1) 2) as [H|_]; [lia|].
  unfold with_options. cbn [options title description].
  rewrite splice_one_inside by (rewrite length_app; cbn [length]; lia).
  rewrite delete_take_drop, take_app_length.
  rewrite drop_ge by (rewrite length_app; cbn [length]; lia).
  rewrite app_nil_r. now destruct d.
Qed.

Lemma apply_edit_length (e : edit) (d : NewPollData) :
  (2 <= length (options d))%nat ->
  (2 <= length (options (apply_edit e d)))%nat.
Proof.
  intros Hl. destruct e as [|index|index value]; cbn [apply_edit].
  - unfold addOption. cbn [options with_options]. rewrite length_app. lia.
  - unfold removeOption.
    destruct (Nat.leb_spec (length (options d)) 2) as [H|H]; [exact Hl|].
    cbn [options with_options].
    pose proof (length_splice_one index (options d)). lia.
  - unfold updateOption. cbn [options with_options].
    pose proof (length_assign index value (options d)). lia.
Qed.

(** Whatever edits are made, a form that has two options at least keeps
    two options at least; the form starts with three. *)
Theorem poll_form_keeps_two_options (es : list edit) (d : NewPollData) :
  (2 <= length (options d))%nat ->
  (2 <= length (options (apply_edits es d)))%nat.
Proof.
  revert d. induction es as [|e es IH]; intros d Hl; [exact Hl|].
  cbn [apply_edits fold_left]. apply IH. now apply apply_edit_length.
Qed.

End PollFormProperties.

Lemma removeOption_effect_witness :
  PollForm.options (PollForm.removeOption 1 PollForm.initial)
  = [Some ""; Some ""] /\
  PollForm.removeOption 1 (PollForm.removeOption 1 PollForm.initial)
  = PollForm.removeOption 1 PollForm.initial.
Proof.
  split.
  - destruct (removeOption_effect 1 PollForm.initial) as (_ & _ & _ & H).
    destruct H as (H & _); [cbn; lia|]. apply H. cbn. lia.
  - destruct (removeOption_effect 1 (PollForm.removeOption 1 PollForm.initial))
      as (_ & _ & H & _).
    apply H. vm_compute. lia.
Defined.

Lemma updateOption_effect_witness :
  (let o' := PollForm.options (PollForm.updateOption 4 "d" PollForm.initial) in
   o' !! 4%nat = Some (Some "d") /\
   length o' = 5%nat /\
   (forall j, (j < 3)%nat -> j <> 4%nat ->
              o' !! j = PollForm.options PollForm.initial !! j) /\
   (forall j, (3 <= j < 4)%nat -> o' !! j = Some None)) /\
  PollForm.options (PollForm.updateOption (2 ^ 32 - 1) "d" PollForm.initial)
  = PollForm.options PollForm.initial.
Proof.
  split.
  - destruct (updateOption_effect 4 "d" PollForm.initial) as (_ & _ & _ & H).
    apply H. unfold PollForm.MAX_ARRAY_INDEX. lia.
  - destruct (updateOption_effect (2 ^ 32 - 1) "d" PollForm.initial)
      as (_ & _ & H & _).
    apply H. right. unfold PollForm.MAX_ARRAY_INDEX. lia.
Defined.

Lemma addOption_removeOption_witness :
  PollForm.removeOption 3 (PollForm.addOption PollForm.initial)
  = PollForm.initial.
Proof.
  apply (addOption_removeOption PollForm.initial). cbn. lia.
Defined.

Lemma poll_form_keeps_two_options_witness :
  (2 <= length (PollForm.options
                  (PollForm.apply_edits
                     [PollForm.RemoveOption 0; PollForm.RemoveOption (-1);
                      PollForm.RemoveOption 0; PollForm.UpdateOption 1 "b";
                      PollForm.AddOption]
                     PollForm.initial)))%nat.
Proof.
  apply poll_form_keeps_two_options. cbn. lia.
Defined.

(** ** What a tally is, and what a callback publishes *)

Section Tallies.

Context {F : FHEVM} {L : FHEVMLaws F}.

Lemma tally_trace_run (k : string) (cs : list call) (s : State) (n t : Z) :
  wf s ->
  voteCount s + Z.of_nat (length (submitted_keys cs)) <= MAX_UINT256 ->
  votes_for k (ledger_keys s) = n ->
  tally s k = t mod UINT32_MOD ->
  tally (run cs s) k = tally_trace k cs n t mod UINT32_MOD.
Proof.
  assert (HM : 0 < UINT32_MOD) by (unfold UINT32_MOD; lia).
  revert s n t. induction cs as [|c cs IH]; intros s n t W Hmax Hn Ht;
    [exact Ht|].
  cbn [run fold_left]. fold (run cs (step c s)).
  rewrite (submitted_keys_cons c cs), length_app in Hmax.
  pose proof (wf_step c s W) as W'.
  destruct c as [now voter choice| |choice|id ct pf]; cbn [tally_trace].
  - cbn in Hmax.
    destruct (submit_ok now voter choice s) as [s' E]; [lia|].
    assert (Es : step (SubmitEncryptedVote now voter choice) s = s')
      by (unfold step; cbn [execute]; now rewrite E).
    rewrite Es in *.
    pose proof (submit_ledger now voter choice s s' (proj1 (wf_count s W)) E)
      as Hl.
    apply submit_inv in E as (_ & Hvc & _ & _ & _ & _ & _ & Hreg).
    set (k0 := bytes32ToString (FHE_toBytes32 choice)) in *.
    assert (Ht' : tally s' k = t mod UINT32_MOD).
    { rewrite <- Ht. unfold tally.
      destruct Hreg as [(_ & Hcnt & _)|(Hk0 & Hcnt & _)].
      - now rewrite (count_frame s s').
      - rewrite (count_insert s s' k0 k _ Hcnt).
        destruct (decide (k0 = k)) as [<-|]; [|reflexivity].
        rewrite Hk0, decrypt_asEuint32, decrypt_uninitialized.
        now apply Z.mod_0_l, Z.neq_sym, Z.lt_neq. }
    assert (Hn' : votes_for k (ledger_keys s')
                  = if decide (k0 = k) then n + 1 else n).
    { rewrite Hl. unfold votes_for in *. rewrite count_key_app.
      change (count_key k [k0]) with (count_key k (k0 :: [])).
      rewrite count_key_cons. destruct (decide (k0 = k)); cbn; lia. }
    destruct (decide (k0 = k)); apply IH; auto; lia.
  - destruct (step_aggregate_frame s) as (Hvc & Hv & _).
    apply IH; [exact W'|cbn in Hmax; lia| |].
    + now rewrite (ledger_keys_frame s _ Hvc Hv).
    + unfold tally. rewrite step_aggregate_count.
      rewrite decrypt_iter by apply (wf_range s W).
      fold (tally s k). rewrite Ht, Z.add_mod_idemp_l by lia.
      f_equal. unfold votes_for in Hn. lia.
  - cbn in Hmax. unfold step in *. cbn [execute] in *.
    destruct (requestChoiceDecryption choice s) as [s'|] eqn:E;
      [|apply IH; auto; lia].
    apply request_inv in E as (_ & Hvc & Hv & Hcnt & _).
    apply IH; [exact W'|lia| |].
    + now rewrite (ledger_keys_frame s _ Hvc Hv).
    + now rewrite (tally_frame s s').
  - cbn in Hmax. unfold step in *. cbn [execute] in *.
    destruct (decryptChoiceCount id ct pf s) as [s'|] eqn:E;
      [|apply IH; auto; lia].
    apply callback_inv in E as (k0 & m & _ & _ & _ & ->).
    apply IH; [exact W'|cbn; lia|exact Hn|exact Ht].
Qed.

(** The tally of a key after any calls on a fresh ledger: every
    aggregation adds the number of votes for the key submitted before it,
    so a vote is counted once for each aggregation that follows it; all
    modulo [2^32]. *)
Theorem tally_after_calls (cs : list call) (k : string) :
  Z.of_nat (length (submitted_keys cs)) <= MAX_UINT256 ->
  tally (run cs init) k = tally_trace k cs 0 0 mod UINT32_MOD.
Proof.
  intros Hmax. apply tally_trace_run.
  - apply wf_init.
  - cbn. lia.
  - reflexivity.
  - cbn. unfold tally, getEncryptedChoiceCount. cbn.
    rewrite lookup_empty. cbn. apply decrypt_uninitialized.
Qed.

(** What a callback publishes: in a reachable state a callback for a
    stored request with a proof that checks emits one event, with the first
    listed choice that has the hash stored for the request and with the
    plaintext of the handle submitted with the request, and changes nothing
    else. *)
Theorem callback_publishes_request (s : State) (id c : Z)
    (ct pf : list byte) :
  reachable s -> decryptionRequests s !! id = Some c ->
  FHE_checkSignatures s id ct pf = Ok tt ->
  exists k h l1 l2,
    choiceList s = l1 ++ k :: l2 /\ choice_hash k = c /\
    (forall k', k' ∈ l1 -> choice_hash k' <> c) /\
    requestedHandles s !! id = Some [h] /\
    decryptChoiceCount id ct pf s
    = Ok (emit (VoteCountDecrypted k (decrypt h)) s).
Proof.
  intros R Hc Hsig.
  destruct (callback_pending_valid s id c ct pf (reachable_wf s R) Hc Hsig)
    as (k & h & Hk & Hh & E).
  destruct (find_choice_split _ _ _ Hk) as (l1 & l2 & Hl & Hhash & Hfirst).
  exists k, h, l1, l2. auto.
Qed.

End Tallies.

Lemma tally_after_calls_witness :
  tally (run Toy.early_aggregate init) Toy.kA
  = tally_trace Toy.kA Toy.early_aggregate 0 0 mod UINT32_MOD.
Proof.
  apply (@tally_after_calls Toy.toy toy_laws Toy.early_aggregate Toy.kA).
  vm_compute. discriminate.
Defined.

Lemma callback_publishes_request_witness :
  exists k h l1 l2,
    choiceList Toy.requested = l1 ++ k :: l2 /\
    choice_hash k = choice_hash Toy.kA /\
    (forall k', k' ∈ l1 -> choice_hash k' <> choice_hash Toy.kA) /\
    requestedHandles Toy.requested !! 0 = Some [h] /\
    decryptChoiceCount 0 Toy.clear1 Toy.clear1 Toy.requested
    = Ok (emit (VoteCountDecrypted k (decrypt h)) Toy.requested).
Proof.
  apply (@callback_publishes_request Toy.toy toy_laws Toy.requested 0
           (choice_hash Toy.kA) Toy.clear1 Toy.clear1).
  - exact reachable_requested.
  - vm_compute. reflexivity.
  - vm_compute. reflexivity.
Defined.

Lemma getChoiceFromHash_first_match_witness :
  exists l1 l2,
    choiceList Toy.requested = l1 ++ Toy.kA :: l2 /\
    choice_hash Toy.kA = choice_hash Toy.kA /\
    forall k', k' ∈ l1 -> choice_hash k' <> choice_hash Toy.kA.
Proof.
  assert (E : getChoiceFromHash Toy.requested (choice_hash Toy.kA)
              = Ok Toy.kA) by (vm_compute; reflexivity).
  pose proof (@getChoiceFromHash_first_match Toy.toy Toy.requested
                (choice_hash Toy.kA)) as H.
  rewrite E in H. exact H.
Defined.
